(** * Nerdle-In-Two: feedback engine, aggregation and loader

    A shallow embedding of [nerdle_solve_in_2.py].  NumPy arrays are lists:
    a [(8,)] uint8 array is a [list Z] of character codes, an [(N, 8)] array a
    list of such rows, a boolean mask a [list bool] (or a list of them).
    Vectorised statements act on all rows at once, as in the source; the
    loops of the source are folds that thread the arrays they assign to. *)

From Stdlib Require Import ZArith QArith Lia Ascii String.
From stdpp Require Import base numbers list strings gmap sorting.

Local Open Scope Z_scope.

(** ** Array primitives used by the script *)

(** [np.zeros(n)] and [np.zeros((n, 8))]. *)
Definition zeros (n : nat) : list Z := replicate n 0.
Definition zeros2 (n : nat) : list (list Z) := replicate n (zeros 8).

(** [mask.sum()]: number of [True] cells of a boolean row. *)
Definition sum_bool (mask : list bool) : Z :=
  Z.of_nat (length (filter (λ b : bool, b = true) mask)).

(** [np.where(a == char)[0]]: the indices holding [char], ascending. *)
Definition where_eq (a : list Z) (char : Z) : list nat :=
  filter (λ p, a !! p = Some char) (seq 0 (length a)).

(** [np.unique]: the sorted distinct values.  [unique_insert] puts one value
    in its place of an ascending duplicate-free list. *)
Fixpoint unique_insert (x : Z) (l : list Z) : list Z :=
  match l with
  | [] => [x]
  | y :: l' =>
      if x <? y then x :: l
      else if x =? y then l
      else y :: unique_insert x l'
  end.

Definition np_unique (a : list Z) : list Z := foldr unique_insert [] a.

(** ** Feedback computation *)

(** [guess[np.newaxis, :] == all_secrets]: the guess broadcast against every
    row. *)
Definition greens_of (guess : list Z) (all_secrets : list (list Z))
  : list (list bool) :=
  map (λ secret, zip_with Z.eqb guess secret) all_secrets.

(** [result[greens] = 2]. *)
Definition mark_greens (result : list (list Z)) (greens : list (list bool))
  : list (list Z) :=
  zip_with (zip_with (λ (r : Z) (g : bool), if g then 2 else r)) result greens.

(** [greens[:, p]]. *)
Definition column (p : nat) (greens : list (list bool)) : list bool :=
  map (λ row, default false (row !! p)) greens.

(** One turn of the inner loop [for p in guess_positions], on the pair of
    arrays [(result, assigned)] it updates. *)
Definition purple_step (greens : list (list bool)) (remaining : list Z)
    (st : list (list Z) * list Z) (p : nat) : list (list Z) * list Z :=
  let '(result, assigned) := st in
  let is_green_here := column p greens in
  let can_purple :=
    zip_with andb (map negb is_green_here) (zip_with Z.ltb assigned remaining) in
  (zip_with (λ row (b : bool), if b then <[p := 1]> row else row)
     result can_purple,
   zip_with (λ a (b : bool), if b then a + 1 else a) assigned can_purple).

(** One turn of the outer loop [for char in np.unique(guess)]. *)
Definition purple_pass (guess : list Z) (all_secrets : list (list Z))
    (greens : list (list bool)) (result : list (list Z)) (char : Z)
  : list (list Z) :=
  let guess_positions := where_eq guess char in
  let char_in_secret := map (map (λ x, x =? char)) all_secrets in
  let char_green := zip_with (zip_with andb) greens char_in_secret in
  let remaining :=
    zip_with Z.sub (map sum_bool char_in_secret) (map sum_bool char_green) in
  let assigned := zeros (length all_secrets) in
  fst (fold_left (purple_step greens remaining) guess_positions
         (result, assigned)).

(** The [(N, 8)] array [result] as it stands before the encoding step. *)
Definition feedback_marks (guess : list Z) (all_secrets : list (list Z))
  : list (list Z) :=
  let N := length all_secrets in
  let result := zeros2 N in
  let greens := greens_of guess all_secrets in
  let result := mark_greens result greens in
  fold_left (purple_pass guess all_secrets greens) (np_unique guess) result.

(** [powers = [3 ** i for i in range(8)]]. *)
Definition powers : list Z := map (λ i, 3 ^ Z.of_nat i) (seq 0 8).

(** [(row * powers).sum()]. *)
Definition encode_row (row : list Z) : Z :=
  foldr Z.add 0 (zip_with Z.mul row powers).

Definition compute_feedback (guess : list Z) (all_secrets : list (list Z))
  : list Z :=
  map encode_row (feedback_marks guess all_secrets).

(** [ALL_GREEN_HASH = sum(2 * (3 ** i) for i in range(8))]. *)
Definition ALL_GREEN_HASH : Z :=
  foldr Z.add 0 (map (λ i, 2 * 3 ^ Z.of_nat i) (seq 0 8)).

(** Reading a pattern back: the symbol at position [p] of an encoded
    pattern (0 absent, 1 present-elsewhere, 2 match). *)
Definition symbol_at (h : Z) (p : nat) : Z := (h / 3 ^ Z.of_nat p) mod 3.

(** ** Per-pair feedback

    The same algorithm for a single secret, in the words of the design
    (match pass, then a presence pass per distinct character of the guess
    with a running count of unconsumed occurrences that is decremented on
    every credit), on scalar state. *)

Definition pair_step (greens : list bool) (st : list Z * Z) (p : nat)
  : list Z * Z :=
  let '(marks, unconsumed) := st in
  if negb (default false (greens !! p)) && (0 <? unconsumed)
  then (<[p := 1]> marks, unconsumed - 1)
  else st.

Definition unconsumed_of (greens : list bool) (secret : list Z) (c : Z) : Z :=
  let c_in_secret := map (λ x, x =? c) secret in
  sum_bool c_in_secret - sum_bool (zip_with andb greens c_in_secret).

Definition pair_pass (guess secret : list Z) (greens : list bool)
    (marks : list Z) (c : Z) : list Z :=
  fst (fold_left (pair_step greens) (where_eq guess c)
         (marks, unconsumed_of greens secret c)).

Definition match_pass (greens : list bool) : list Z :=
  zip_with (λ (r : Z) (g : bool), if g then 2 else r) (zeros 8) greens.

Definition marks_pair (guess secret : list Z) : list Z :=
  let greens := zip_with Z.eqb guess secret in
  fold_left (pair_pass guess secret greens) (np_unique guess)
    (match_pass greens).

Definition feedback_pair (guess secret : list Z) : Z :=
  encode_row (marks_pair guess secret).

(** ** Closed form of the marks

    The non-match positions of [c] in the guess, left to right, and the
    prefix of them that the presence pass credits. *)

Definition is_green (guess secret : list Z) (p : nat) : bool :=
  default false (zip_with Z.eqb guess secret !! p).

Definition nonmatch_positions (guess secret : list Z) (c : Z) : list nat :=
  filter (λ p, is_green guess secret p = false) (where_eq guess c).

Definition credited (guess secret : list Z) (c : Z) : list nat :=
  take (Z.to_nat (unconsumed_of (zip_with Z.eqb guess secret) secret c))
       (nonmatch_positions guess secret c).

(** Number of occurrences of a value in an array. *)
Definition occurrences (c : Z) (a : list Z) : nat :=
  length (filter (λ x, x = c) a).

(** Positions of [c] in the guess whose symbol in pattern [h] satisfies
    [sel]. *)
Definition marked (sel : Z → bool) (guess : list Z) (h : Z) (c : Z)
  : list nat :=
  filter (λ p, sel (symbol_at h p) = true) (where_eq guess c).

(** [marks] with the symbol 1 written at each position of [qs]. *)
Definition set_ones (qs : list nat) (marks : list Z) : list Z :=
  fold_left (λ m q, <[q := 1]> m) qs marks.

(** The symbol the algorithm leaves at position [p]. *)
Definition mark (guess secret : list Z) (p : nat) : Z :=
  if is_green guess secret p then 2
  else if bool_decide (p ∈ credited guess secret (default 0 (guess !! p)))
       then 1 else 0.

(** Base-3 value of a row of symbols, least significant first. *)
Definition horner (row : list Z) : Z := foldr (λ x acc, x + 3 * acc) 0 row.

(** The match positions of [c] in the guess, and the number of occurrences
    of [c] in the secret that no match consumes. *)
Definition match_positions (guess secret : list Z) (c : Z) : list nat :=
  filter (λ p, is_green guess secret p = true) (where_eq guess c).

Definition unconsumed (guess secret : list Z) (c : Z) : nat :=
  (occurrences c secret - length (match_positions guess secret c))%nat.

(** ** Exceptions and results

    A Python [str] is the list of its code points.  A call that may raise
    returns a [result]: [inl e] when it raises [e], [inr v] when it returns
    [v]. *)

Inductive exception : Type :=
  | AssertionError (record : list Z) (len : nat)
      (* "Expected 8-char equation, got '{s}' (len {len(s)})" *)
  | FileError      (* whatever [open] or reading the file raises *)
  | IndexError
  | OverflowError
  | SystemExit (message : string).

Definition result : Type → Type := sum exception.

#[global] Instance result_ret : MRet result := λ A, inr.
#[global] Instance result_bind : MBind result := λ A B f m,
  match m with inl e => inl e | inr v => f v end.

Definition raise {A} (e : exception) : result A := inl e.

(** ** Data loading *)

(** The characters [str.strip()] removes: those for which [str.isspace]
    holds. *)
Definition is_space (c : Z) : bool :=
  ((9 <=? c) && (c <=? 13)) || ((28 <=? c) && (c <=? 32))
  || (c =? 133) || (c =? 160) || (c =? 5760)
  || ((8192 <=? c) && (c <=? 8202))
  || (c =? 8232) || (c =? 8233) || (c =? 8239) || (c =? 8287)
  || (c =? 12288).

Fixpoint lstrip (s : list Z) : list Z :=
  match s with
  | [] => []
  | c :: s' => if is_space c then lstrip s' else s
  end.

Definition rstrip (s : list Z) : list Z := reverse (lstrip (reverse s)).

Definition strip (s : list Z) : list Z := rstrip (lstrip s).

(** [for s in solutions: assert len(s) == 8, ...]. *)
Fixpoint assert_lengths (solutions : list (list Z)) : result unit :=
  match solutions with
  | [] => mret ()
  | s :: rest =>
      if decide (length s = 8%nat) then assert_lengths rest
      else raise (AssertionError s (length s))
  end.

(** [load_solutions].  The argument stands for the file at [filepath]:
    [None] when [open] raises, otherwise the lines that iterating over the
    file yields, each with its line end. *)
Definition load_solutions (f : option (list (list Z)))
  : result (list (list Z)) :=
  match f with
  | None => raise FileError
  | Some lines =>
      let solutions := filter (λ s, s ≠ []) (map strip lines) in
      _ ← assert_lengths solutions;
      mret solutions
  end.

(** Storing a Python int in a uint8 cell: NumPy 2 raises [OverflowError]
    for a value outside [0, 255] (older releases wrapped it). *)
Definition store_uint8 (v : Z) : result Z :=
  if (0 <=? v) && (v <=? 255) then mret v else raise OverflowError.

(** [encoded[i, j] = ord(c)] for the [j]-th character of row [i]. *)
Definition encode_cell (row : result (list Z)) (jc : nat * Z)
  : result (list Z) :=
  r ← row;
  if decide (8 ≤ jc.1)%nat then raise IndexError
  else v ← store_uint8 jc.2; mret (<[jc.1 := v]> r).

Definition encode_solutions (solutions : list (list Z))
  : result (list (list Z)) :=
  mapM (λ s, fold_left encode_cell (imap pair s) (mret (zeros 8))) solutions.

(** ** Main analysis *)

(** A value stored in an int32 cell. *)
Definition to_int32 (z : Z) : Z := (z + 2 ^ 31) mod 2 ^ 32 - 2 ^ 31.

(** [len(unique) - int(ALL_GREEN_HASH in unique)] for the guess [g]. *)
Definition count_patterns (encoded : list (list Z)) (g : list Z) : Z :=
  let hashes := compute_feedback g encoded in
  let unique := np_unique hashes in
  Z.of_nat (length unique)
  - (if bool_decide (ALL_GREEN_HASH ∈ unique) then 1 else 0).

(** The loop [for gi in range(N)] filling [num_patterns]. *)
Definition num_patterns_of (encoded : list (list Z)) : list Z :=
  let N := length encoded in
  fold_left
    (λ num_patterns gi,
       <[gi := to_int32 (count_patterns encoded (default [] (encoded !! gi)))]>
         num_patterns)
    (seq 0 N) (zeros N).

(** [num_patterns / N]: the quotient, kept exact. *)
Definition true_divide (k : Z) (N : nat) : Q :=
  (inject_Z k / inject_Z (Z.of_nat N))%Q.

Definition p_solve2_of (num_patterns : list Z) (N : nat) : list Q :=
  map (λ k, true_divide k N) num_patterns.

(** [np.argsort]: a permutation of the indices that puts the keys in
    ascending order.  NumPy's default sort does not fix the order among equal
    keys; a merge sort stands for it. *)
Definition key_le (keys : list Q) (i j : nat) : Prop :=
  Qle_bool (default 0%Q (keys !! i)) (default 0%Q (keys !! j)) = true.

#[global] Instance key_le_dec keys i j : Decision (key_le keys i j).
Proof. unfold key_le. apply _. Defined.

Definition argsort (keys : list Q) : list nat :=
  merge_sort (key_le keys) (seq 0 (length keys)).

Definition ranking (p_solve2 : list Q) : list nat :=
  argsort (map Qopp p_solve2).

(** One line of [nerdle_results_full.csv]. *)
Record csv_row : Type := CsvRow {
  row_rank : nat;
  row_guess : list Z;
  row_patterns : Z;
  row_p : Q;
}.

Definition csv_rows (solutions : list (list Z)) (num_patterns : list Z)
    (p_solve2 : list Q) (order : list nat) : list csv_row :=
  imap (λ r idx,
          CsvRow (S r) (default [] (solutions !! idx))
                 (default 0 (num_patterns !! idx))
                 (default 0%Q (p_solve2 !! idx)))
       order.

(** What the script touches outside itself. *)
Record world : Type := World {
  script_dir : string;
  data_exists : bool;                   (* os.path.exists(data_path) *)
  data_file : option (list (list Z));   (* the file at data_path, see above *)
  csv_file : option (list csv_row);     (* nerdle_results_full.csv *)
}.

(** [os.path.join]. *)
Definition path_join (dir name : string) : string :=
  if bool_decide (dir = "") then name
  else if bool_decide
            (String.get (String.length dir - 1) dir = Some ("/"%char : ascii))
       then dir +:+ name
  else dir +:+ "/" +:+ name.

Definition data_path (w : world) : string :=
  path_join (script_dir w) "NerdleClassicRestricted.txt".

Definition source_url : string :=
  "https://github.com/pedrokkrause/Nerdle-Equations".

Definition not_found_message (w : world) : string :=
  "ERROR: " +:+ data_path w +:+ " not found. Download it from " +:+ source_url.

(** [main]: the exception it ends with, if any, and the world it leaves.
    Printing to standard output is left out. *)
Definition main (w : world) : result unit * world :=
  if negb (data_exists w) then (raise (SystemExit (not_found_message w)), w)
  else
    match load_solutions (data_file w) with
    | inl e => (raise e, w)
    | inr solutions =>
        let N := length solutions in
        match encode_solutions solutions with
        | inl e => (raise e, w)
        | inr encoded =>
            let num_patterns := num_patterns_of encoded in
            let p_solve2 := p_solve2_of num_patterns N in
            let order := ranking p_solve2 in
            match order !! 0%nat with
            | None => (raise IndexError, w)       (* best_idx = order[0] *)
            | Some best_idx =>
                (mret (),
                 World (script_dir w) (data_exists w) (data_file w)
                   (Some (csv_rows solutions num_patterns p_solve2 order)))
            end
        end
    end.


(** ** The printed summary

    What the report section of [main] prints after the loop: the best and the
    worst first guess, the top-20 table and the list of the five worst, worst
    first.  The rows carry the same four fields as the lines of the CSV
    file. *)

Record summary : Type := Summary {
  best_idx : nat;              (* order[0] *)
  worst_idx : nat;             (* order[-1] *)
  top20 : list csv_row;        (* enumerate(order[:20], 1) *)
  worst5 : list csv_row;       (* enumerate(order[-5:][::-1], 1) *)
}.

Definition summarize (solutions : list (list Z)) (num_patterns : list Z)
    (p_solve2 : list Q) (order : list nat) : result summary :=
  match order !! 0%nat, last order with
  | Some best, Some worst =>
      mret (Summary best worst
              (csv_rows solutions num_patterns p_solve2 (take 20 order))
              (csv_rows solutions num_patterns p_solve2
                 (reverse (drop (length order - 5) order))))
  | _, _ => raise IndexError
  end.

(** ** The probability as the module docstring derives it

    [K(P)]: the number of solutions whose feedback for the guess is [P];
    and [(1/N) * sum over S ≠ G of 1 / K(feedback(G, S))]. *)

Definition bucket_size (encoded : list (list Z)) (g : list Z) (P : Z) : nat :=
  length (filter (λ h, h = P) (compute_feedback g encoded)).

Definition Qsum (l : list Q) : Q := foldr Qplus 0%Q l.

Definition solve_in_2 (encoded : list (list Z)) (g : list Z) : Q :=
  (1 / inject_Z (Z.of_nat (length encoded))
   * Qsum (map (λ s, 1 / inject_Z (Z.of_nat
                        (bucket_size encoded g (feedback_pair g s))))
             (filter (λ s, s ≠ g) encoded)))%Q.


(** ** The loop with its progress lines

    [np.argmax]: the index of the first occurrence of the largest value;
    [None] for an empty array, where NumPy raises. *)
Fixpoint argmax_from (best : nat) (best_val : Z) (i : nat) (a : list Z)
  : nat :=
  match a with
  | [] => best
  | x :: a' =>
      if best_val <? x then argmax_from i x (S i) a'
      else argmax_from best best_val (S i) a'
  end.

Definition np_argmax (a : list Z) : option nat :=
  match a with
  | [] => None
  | x :: a' => Some (argmax_from 0 x 1 a')
  end.

(** What a progress line shows apart from the timings: how many guesses are
    done, the best one so far and its count. *)
Record progress_line : Type := ProgressLine {
  processed : nat;         (* gi + 1 *)
  best_so_far : nat;       (* np.argmax(num_patterns[: gi + 1]) *)
  best_patterns : Z;       (* num_patterns[best_so_far] *)
}.

(** One turn of [for gi in range(N)], on the array it fills and the lines
    printed so far.  The slice [num_patterns[: gi + 1]] is never empty, so
    the [None] branch is not taken. *)
Definition loop_step (encoded : list (list Z))
    (st : list Z * list progress_line) (gi : nat)
  : list Z * list progress_line :=
  let '(num_patterns, printed) := st in
  let num_patterns :=
    <[gi := to_int32 (count_patterns encoded (default [] (encoded !! gi)))]>
      num_patterns in
  if decide ((gi + 1) `mod` 2000 = 0)%nat then
    match np_argmax (take (gi + 1) num_patterns) with
    | Some best =>
        (num_patterns,
         printed ++ [ProgressLine (gi + 1) best
                       (default 0 (num_patterns !! best))])
    | None => (num_patterns, printed)
    end
  else (num_patterns, printed).

Definition counting_loop (encoded : list (list Z))
  : list Z * list progress_line :=
  let N := length encoded in
  fold_left (loop_step encoded) (seq 0 N) (zeros N, []).


(** What a progress line says of the finished array: its guess is among the
    first [processed], has the largest count of them and is the first to
    reach it. *)
Definition line_ok (num_patterns : list Z) (l : progress_line) : Prop :=
  (best_so_far l < processed l)%nat
  ∧ num_patterns !! best_so_far l = Some (best_patterns l)
  ∧ (∀ i v, (i < processed l)%nat → num_patterns !! i = Some v →
       v ≤ best_patterns l)
  ∧ (∀ i v, (i < best_so_far l)%nat → num_patterns !! i = Some v →
       v < best_patterns l).

(** * Worked examples *)

Example unique_ex : np_unique [51; 49; 50; 49; 51] = [49; 50; 51].
Proof. reflexivity. Qed.

Example all_green_value : ALL_GREEN_HASH = 6560.
Proof. reflexivity. Qed.

(* guess 11111111, secret 1+1+1=03 *)
Example fb_ex1 :
  feedback_marks (replicate 8 49) [[49; 43; 49; 43; 49; 61; 48; 51]]
  = [[2; 0; 2; 0; 2; 0; 0; 0]].
Proof. reflexivity. Qed.

(* guess 12+34=46 secret 41+23=64 *)
Example fb_ex2 :
  feedback_marks [49; 50; 43; 51; 52; 61; 52; 54]
                 [[52; 49; 43; 50; 51; 61; 54; 52]]
  = [[1; 1; 2; 1; 1; 2; 1; 1]].
Proof. reflexivity. Qed.

Example argmax_first : np_argmax [3; 7; 7; 2] = Some 1%nat.
Proof. reflexivity. Qed.

(** * Properties *)

(** ** The batched computation, row by row *)

Section Rows.
Context (g : list bool) (gs : list (list bool)) (m : Z) (ms : list Z).

Lemma purple_walk_cons ps : ∀ r rs a av u,
  u = m - a →
  fold_left (purple_step (g :: gs) (m :: ms)) ps (r :: rs, a :: av)
  = (fst (fold_left (pair_step g) ps (r, u))
       :: fst (fold_left (purple_step gs ms) ps (rs, av)),
     (m - snd (fold_left (pair_step g) ps (r, u)))
       :: snd (fold_left (purple_step gs ms) ps (rs, av))).
Proof.
  induction ps as [|p ps IH]; intros r rs a av u Hu; simpl.
  - f_equal. f_equal. lia.
  - destruct (negb (default false (g !! p))) eqn:Hg; simpl.
    + destruct (Z.ltb_spec a m) as [Hlt|Hge].
      * assert ((0 <? u) = true) as -> by (apply Z.ltb_lt; lia).
        apply IH. lia.
      * assert ((0 <? u) = false) as -> by (apply Z.ltb_ge; lia).
        by apply IH.
    + by apply IH.
Qed.
End Rows.

Lemma purple_pass_cons guess s A r rs c :
  purple_pass guess (s :: A) (greens_of guess (s :: A)) (r :: rs) c
  = pair_pass guess s (zip_with Z.eqb guess s) r c
      :: purple_pass guess A (greens_of guess A) rs c.
Proof.
  unfold purple_pass, pair_pass, unconsumed_of.
  cbn [greens_of map zip_with length zeros replicate].
  erewrite purple_walk_cons by (symmetry; apply Z.sub_0_r).
  reflexivity.
Qed.

Lemma purple_fold_cons guess s A cs : ∀ r rs,
  fold_left (purple_pass guess (s :: A) (greens_of guess (s :: A))) cs (r :: rs)
  = fold_left (pair_pass guess s (zip_with Z.eqb guess s)) cs r
      :: fold_left (purple_pass guess A (greens_of guess A)) cs rs.
Proof.
  induction cs as [|c cs IH]; intros r rs; [done|].
  cbn [fold_left]. rewrite purple_pass_cons. apply IH.
Qed.

Lemma feedback_marks_cons guess s A :
  feedback_marks guess (s :: A) = marks_pair guess s :: feedback_marks guess A.
Proof.
  unfold feedback_marks, marks_pair, match_pass.
  cbn [length zeros2 replicate]. cbn [greens_of map mark_greens zip_with].
  by rewrite purple_fold_cons.
Qed.

Lemma purple_walk_nil ps :
  fold_left (purple_step [] []) ps ([], []) = ([], []).
Proof. induction ps as [|p ps IH]; [done|]. exact IH. Qed.

Lemma feedback_marks_nil guess : feedback_marks guess [] = [].
Proof.
  unfold feedback_marks.
  cbn [length zeros2 replicate greens_of map mark_greens zip_with].
  induction (np_unique guess) as [|c cs IH]; [done|].
  cbn [fold_left]. unfold purple_pass at 2.
  cbn [map zip_with length zeros replicate].
  by rewrite purple_walk_nil.
Qed.

Lemma feedback_marks_rows guess A :
  feedback_marks guess A = map (marks_pair guess) A.
Proof.
  induction A as [|s A IH]; [apply feedback_marks_nil|].
  by rewrite feedback_marks_cons, IH.
Qed.

Lemma compute_feedback_rows guess A :
  compute_feedback guess A = map (feedback_pair guess) A.
Proof.
  unfold compute_feedback, feedback_pair.
  by rewrite feedback_marks_rows, map_map.
Qed.

(** ** The presence pass in closed form *)

Lemma set_ones_length qs : ∀ marks, length (set_ones qs marks) = length marks.
Proof.
  induction qs as [|q qs IH]; intros marks; [done|].
  unfold set_ones in *. cbn [fold_left]. by rewrite IH, length_insert.
Qed.

Lemma set_ones_notin qs p : ∀ marks,
  p ∉ qs → set_ones qs marks !! p = marks !! p.
Proof.
  induction qs as [|q qs IH]; intros marks Hp; [done|].
  apply not_elem_of_cons in Hp as [Hne Hp].
  unfold set_ones in *. cbn [fold_left].
  rewrite IH by done. by apply list_lookup_insert_ne.
Qed.

Lemma set_ones_in qs p : ∀ marks,
  p ∈ qs → (p < length marks)%nat → set_ones qs marks !! p = Some 1.
Proof.
  induction qs as [|q qs IH]; intros marks Hp Hlen.
  - by apply elem_of_nil in Hp.
  - unfold set_ones in *. cbn [fold_left].
    destruct (decide (p ∈ qs)) as [Hin|Hnin].
    + apply IH; [done|]. by rewrite length_insert.
    + apply elem_of_cons in Hp as [->|Hin]; [|done].
      fold (set_ones qs (<[q := 1]> marks)).
      rewrite set_ones_notin by done. by apply list_lookup_insert_eq.
Qed.

Lemma pair_walk greens ps : ∀ marks u,
  fst (fold_left (pair_step greens) ps (marks, u))
  = set_ones (take (Z.to_nat u)
                (filter (λ p, default false (greens !! p) = false) ps)) marks.
Proof.
  induction ps as [|p ps IH]; intros marks u.
  - by rewrite filter_nil, take_nil.
  - cbn [fold_left pair_step].
    destruct (default false (greens !! p)) eqn:Hg; cbn [negb andb].
    + rewrite IH, filter_cons_False; [done|]. by rewrite Hg.
    + rewrite filter_cons_True by done.
      destruct (Z.ltb_spec 0 u) as [Hu|Hu].
      * rewrite IH. replace (Z.to_nat u) with (S (Z.to_nat (u - 1))) by lia.
        done.
      * rewrite IH. replace (Z.to_nat u) with 0%nat by lia. done.
Qed.

Lemma pair_pass_closed guess secret marks c :
  pair_pass guess secret (zip_with Z.eqb guess secret) marks c
  = set_ones (credited guess secret c) marks.
Proof. unfold pair_pass. by rewrite pair_walk. Qed.

Lemma elem_of_where_eq a c p : p ∈ where_eq a c ↔ a !! p = Some c.
Proof.
  unfold where_eq. rewrite list_elem_of_filter, elem_of_seq.
  split; [tauto|]. intros H. split; [done|].
  apply lookup_lt_Some in H. lia.
Qed.

Lemma elem_of_nonmatch guess secret c p :
  p ∈ nonmatch_positions guess secret c
  ↔ guess !! p = Some c ∧ is_green guess secret p = false.
Proof.
  unfold nonmatch_positions.
  rewrite list_elem_of_filter, elem_of_where_eq. tauto.
Qed.

Lemma credited_nonmatch guess secret c p :
  p ∈ credited guess secret c →
  guess !! p = Some c ∧ is_green guess secret p = false.
Proof.
  intros H. apply elem_of_nonmatch.
  unfold credited in H.
  by apply elem_of_take in H as (i & H%list_elem_of_lookup_2 & _).
Qed.

Section Passes.
Context (guess secret : list Z).
Local Abbreviation pass :=
  (pair_pass guess secret (zip_with Z.eqb guess secret)).

Lemma passes_length cs : ∀ marks,
  length (fold_left pass cs marks) = length marks.
Proof.
  induction cs as [|c cs IH]; intros marks; [done|].
  cbn [fold_left]. rewrite IH.
  by rewrite pair_pass_closed, set_ones_length.
Qed.

Lemma passes_untouched cs p : ∀ marks,
  (∀ c, c ∈ cs → p ∉ credited guess secret c) →
  fold_left pass cs marks !! p = marks !! p.
Proof.
  induction cs as [|c cs IH]; intros marks H; [done|].
  cbn [fold_left]. rewrite IH.
  - rewrite pair_pass_closed. apply set_ones_notin.
    apply H. by left.
  - intros c' Hc'. apply H. by right.
Qed.

Lemma passes_keep_one cs p : ∀ marks,
  marks !! p = Some 1 → fold_left pass cs marks !! p = Some 1.
Proof.
  induction cs as [|c cs IH]; intros marks H; [done|].
  cbn [fold_left]. apply IH. rewrite pair_pass_closed.
  destruct (decide (p ∈ credited guess secret c)) as [Hin|Hnin].
  - apply set_ones_in; [done|]. by apply lookup_lt_Some in H.
  - by rewrite set_ones_notin.
Qed.

Lemma passes_credited cs c p : ∀ marks,
  c ∈ cs → p ∈ credited guess secret c → (p < length marks)%nat →
  fold_left pass cs marks !! p = Some 1.
Proof.
  induction cs as [|c' cs IH]; intros marks Hc Hp Hlen.
  - by apply elem_of_nil in Hc.
  - cbn [fold_left].
    destruct (decide (c = c')) as [<-|Hne].
    + apply passes_keep_one. rewrite pair_pass_closed.
      by apply set_ones_in.
    + apply elem_of_cons in Hc as [?|Hc]; [done|].
      apply IH; [done..|].
      by rewrite pair_pass_closed, set_ones_length.
Qed.
End Passes.

(** [np.unique] keeps exactly the values of the array. *)
Lemma elem_of_unique_insert x y l : x ∈ unique_insert y l ↔ x = y ∨ x ∈ l.
Proof.
  induction l as [|z l IH]; cbn [unique_insert].
  - rewrite list_elem_of_singleton. split; [by left|].
    by intros [?|?%elem_of_nil].
  - destruct (Z.ltb_spec y z); [by rewrite elem_of_cons|].
    destruct (Z.eqb_spec y z) as [->|?].
    + rewrite elem_of_cons. tauto.
    + rewrite !elem_of_cons, IH. tauto.
Qed.

Lemma elem_of_np_unique x a : x ∈ np_unique a ↔ x ∈ a.
Proof.
  induction a as [|y a IH]; [done|].
  unfold np_unique in *. cbn [foldr].
  by rewrite elem_of_unique_insert, IH, elem_of_cons.
Qed.

Lemma match_pass_length greens :
  length (match_pass greens) = (8 `min` length greens)%nat.
Proof. unfold match_pass, zeros. by rewrite length_zip_with, length_replicate. Qed.

Lemma match_pass_lookup (greens : list bool) p (b : bool) :
  (p < 8)%nat → greens !! p = Some b →
  match_pass greens !! p = Some (if b then 2 else 0).
Proof.
  intros Hp Hb. unfold match_pass, zeros.
  rewrite lookup_zip_with, lookup_replicate_2 by done. by rewrite Hb.
Qed.

Lemma marks_pair_length guess secret :
  length (marks_pair guess secret)
  = (8 `min` (length guess `min` length secret))%nat.
Proof.
  unfold marks_pair.
  by rewrite passes_length, match_pass_length, length_zip_with.
Qed.

Lemma marks_pair_lookup guess secret p :
  (p < 8)%nat → (p < length guess)%nat → (p < length secret)%nat →
  marks_pair guess secret !! p = Some (mark guess secret p).
Proof.
  intros H8 Hg Hs.
  destruct (lookup_lt_is_Some_2 guess p Hg) as [c Hc].
  destruct (lookup_lt_is_Some_2 secret p Hs) as [d Hd].
  assert (zip_with Z.eqb guess secret !! p = Some (c =? d)) as Hgr.
  { by rewrite lookup_zip_with, Hc, Hd. }
  assert (is_green guess secret p = (c =? d)) as Hig.
  { unfold is_green. by rewrite Hgr. }
  assert (p < length (match_pass (zip_with Z.eqb guess secret)))%nat as Hlen.
  { rewrite match_pass_length, length_zip_with. lia. }
  pose proof (match_pass_lookup _ p _ H8 Hgr) as Hmp.
  unfold marks_pair, mark. rewrite Hig, Hc. cbn [default].
  revert Hig Hmp. destruct (c =? d) eqn:Hcd; intros Hig Hmp.
  - rewrite passes_untouched; [done|].
    intros c' _ [_ Hng]%credited_nonmatch. congruence.
  - case_bool_decide as Hcr.
    + eapply passes_credited; [|done..].
      apply elem_of_np_unique. by eapply list_elem_of_lookup_2.
    + rewrite passes_untouched; [done|].
      intros c' _ Hcr'. apply Hcr.
      apply credited_nonmatch in Hcr' as Hc'. destruct Hc' as [Hc' _].
      by assert (c = c') as -> by congruence.
Qed.

(** ** Encoding and decoding a row of symbols *)

Lemma encode_row_horner row :
  (length row ≤ 8)%nat → encode_row row = horner row.
Proof.
  intros H. unfold encode_row, horner, powers.
  do 9 (destruct row as [|? row]; [cbn; lia|]).
  cbn in H. lia.
Qed.

Lemma horner_bounds row :
  Forall (λ x, 0 ≤ x ≤ 2) row → 0 ≤ horner row < 3 ^ Z.of_nat (length row).
Proof.
  induction 1 as [|x row Hx _ IH]; [done|].
  cbn [horner foldr length]. fold (horner row).
  rewrite Nat2Z.inj_succ, Z.pow_succ_r by lia. lia.
Qed.

Lemma symbol_at_horner row : ∀ p x,
  Forall (λ x, 0 ≤ x ≤ 2) row → row !! p = Some x →
  symbol_at (horner row) p = x.
Proof.
  induction row as [|y row IH]; intros p x Hrow Hp; [done|].
  apply Forall_cons in Hrow as [Hy Hrow].
  cbn [horner foldr]. fold (horner row). unfold symbol_at.
  destruct p as [|p]; cbn [lookup list_lookup] in Hp.
  - injection Hp as <-. rewrite Z.pow_0_r, Z.div_1_r.
    replace (y + 3 * horner row) with (y + horner row * 3) by lia.
    rewrite Z.mod_add by lia. apply Z.mod_small. lia.
  - rewrite Nat2Z.inj_succ, Z.pow_succ_r by lia.
    rewrite <- Z.div_div by lia.
    replace ((y + 3 * horner row) / 3) with (horner row).
    + by apply IH.
    + replace (y + 3 * horner row) with (horner row * 3 + y) by lia.
      rewrite Z.div_add_l by lia. rewrite (Z.div_small y 3) by lia. lia.
Qed.

(** ** Counting positions *)

Section Filters.
Context {A : Type}.
Implicit Types (P Q : A → Prop) (l : list A).

Lemma filter_ext_elem P Q `{!∀ x, Decision (P x), !∀ x, Decision (Q x)} l :
  (∀ x, x ∈ l → P x ↔ Q x) → filter P l = filter Q l.
Proof.
  induction l as [|x l IH]; intros Hext; [done|].
  rewrite !filter_cons, IH by (intros; apply Hext; by right).
  apply decide_ext, Hext. by left.
Qed.

Lemma length_filter_split P Q R
    `{!∀ x, Decision (P x), !∀ x, Decision (Q x), !∀ x, Decision (R x)} l :
  (∀ x, x ∈ l → (R x ↔ P x ∨ Q x) ∧ ¬ (P x ∧ Q x)) →
  length (filter R l) = (length (filter P l) + length (filter Q l))%nat.
Proof.
  induction l as [|x l IH]; intros Hsp; [done|].
  destruct (Hsp x) as [HR Hd]; [by left|].
  rewrite !filter_cons.
  specialize (IH (λ y Hy, Hsp y (list_elem_of_further _ _ _ Hy))).
  repeat case_decide; cbn [length]; try lia; tauto.
Qed.

Lemma length_filter_positions Q `{!∀ x, Decision (Q x)} l :
  ∀ j (P : nat → Prop) `{!∀ p, Decision (P p)},
    (∀ p x, l !! p = Some x → P (j + p)%nat ↔ Q x) →
    length (filter P (seq j (length l))) = length (filter Q l).
Proof.
  induction l as [|x l IH]; intros j P ? Hpos; [done|].
  cbn [length seq]. rewrite !filter_cons.
  assert (length (filter P (seq (S j) (length l))) = length (filter Q l))
    as Htl.
  { apply IH. intros p y Hp. rewrite <- (Hpos (S p) y Hp). f_equiv. lia. }
  pose proof (Hpos 0%nat x eq_refl) as Hhd. rewrite Nat.add_0_r in Hhd.
  repeat case_decide; cbn [length]; tauto || lia.
Qed.
End Filters.

Lemma filter_sublist_id {A} `{EqDecision A} (t l : list A) :
  t `sublist_of` l → NoDup l → filter (λ x, x ∈ t) l = t.
Proof.
  induction 1 as [|x t l Hsub IH|x t l Hsub IH]; intros Hnd; [done|..];
    apply NoDup_cons in Hnd as [Hx Hnd].
  - rewrite filter_cons_True by by left. f_equal.
    transitivity (filter (λ y, y ∈ t) l); [|by apply IH].
    apply filter_ext_elem.
    intros y Hy. rewrite elem_of_cons. split; [|tauto].
    intros [->|?]; done.
  - rewrite filter_cons_False; [by apply IH|].
    intros Hin. apply Hx. by eapply elem_of_sublist.
Qed.

Lemma length_filter_bool {A} (f : A → bool) (l : list A) :
  length l = (length (filter (λ x, f x = true) l)
              + length (filter (λ x, f x = false) l))%nat.
Proof.
  induction l as [|x l IH]; [done|].
  rewrite !filter_cons. destruct (f x); cbn [length]; repeat case_decide;
    cbn [length]; done || lia.
Qed.

Lemma where_eq_length a c : length (where_eq a c) = occurrences c a.
Proof.
  unfold where_eq, occurrences.
  apply (length_filter_positions (λ x, x = c) a 0%nat (λ p, a !! p = Some c)).
  intros p x Hp. cbn. rewrite Hp. split; congruence.
Qed.

Lemma sum_bool_eqb a c :
  sum_bool (map (λ x, x =? c) a) = Z.of_nat (occurrences c a).
Proof.
  unfold sum_bool, occurrences. f_equal.
  induction a as [|x a IH]; [done|].
  cbn [map]. destruct (Z.eqb_spec x c) as [Heq|Hne].
  - rewrite !filter_cons_True by done. cbn [length]. by rewrite IH.
  - rewrite !filter_cons_False by done. exact IH.
Qed.

Lemma sum_bool_andb (a b : list bool) :
  sum_bool (zip_with andb a b) ≤ sum_bool b.
Proof.
  unfold sum_bool. apply inj_le. revert a.
  induction b as [|y b IH]; intros [|x a]; cbn [zip_with]; try (cbn; lia).
  specialize (IH a). rewrite !filter_cons.
  destruct x, y; cbn [andb]; repeat case_decide; cbn [length]; done || lia.
Qed.

Lemma is_green_lookup guess secret p c d :
  guess !! p = Some c → secret !! p = Some d →
  is_green guess secret p = (c =? d).
Proof.
  intros Hc Hd. unfold is_green. by rewrite lookup_zip_with, Hc, Hd.
Qed.

Lemma sum_bool_greens guess secret c :
  length guess = length secret →
  sum_bool (zip_with andb (zip_with Z.eqb guess secret)
              (map (λ x, x =? c) secret))
  = Z.of_nat (length (match_positions guess secret c)).
Proof.
  intros Hlen. unfold sum_bool, match_positions, where_eq. f_equal.
  rewrite list_filter_filter. symmetry.
  set (l := zip_with andb _ _).
  assert (length guess = length l) as ->.
  { unfold l. rewrite !length_zip_with, length_map. lia. }
  apply (length_filter_positions (λ b : bool, b = true) l 0%nat).
  intros p b Hp. cbn [Nat.add]. unfold l in Hp.
  apply lookup_zip_with_Some in Hp as (x & y & -> & Hx & Hy).
  apply lookup_zip_with_Some in Hx as (u & v & -> & Hu & Hv).
  rewrite list_lookup_fmap, Hv in Hy. injection Hy as <-.
  rewrite (is_green_lookup _ _ _ _ _ Hu Hv), Hu.
  rewrite andb_true_iff, !Z.eqb_eq. split.
  - intros [-> [= ->]]. done.
  - intros [-> ->]. done.
Qed.

Lemma match_positions_le guess secret c :
  length guess = length secret →
  (length (match_positions guess secret c) ≤ occurrences c secret)%nat.
Proof.
  intros Hlen. apply Nat2Z.inj_le.
  rewrite <- sum_bool_greens, <- sum_bool_eqb by done. apply sum_bool_andb.
Qed.

Lemma unconsumed_of_nat guess secret c :
  length guess = length secret →
  unconsumed_of (zip_with Z.eqb guess secret) secret c
  = Z.of_nat (unconsumed guess secret c).
Proof.
  intros Hlen. pose proof (match_positions_le guess secret c Hlen).
  unfold unconsumed_of, unconsumed.
  rewrite sum_bool_greens, sum_bool_eqb by done. lia.
Qed.

Lemma credited_take guess secret c :
  length guess = length secret →
  credited guess secret c
  = take (unconsumed guess secret c) (nonmatch_positions guess secret c).
Proof.
  intros Hlen. unfold credited.
  by rewrite unconsumed_of_nat, Nat2Z.id.
Qed.

Lemma positions_split guess secret c :
  occurrences c guess
  = (length (match_positions guess secret c)
     + length (nonmatch_positions guess secret c))%nat.
Proof.
  rewrite <- where_eq_length.
  apply (length_filter_bool (is_green guess secret)).
Qed.

(** ** Symbols of the encoded pattern *)

Lemma set_ones_range qs : ∀ marks,
  Forall (λ x, 0 ≤ x ≤ 2) marks → Forall (λ x, 0 ≤ x ≤ 2) (set_ones qs marks).
Proof.
  induction qs as [|q qs IH]; intros marks H; [done|].
  unfold set_ones in *. cbn [fold_left]. apply IH, Forall_insert; [done|lia].
Qed.

Lemma match_pass_range greens : Forall (λ x, 0 ≤ x ≤ 2) (match_pass greens).
Proof.
  apply Forall_lookup_2. intros i z Hz. unfold match_pass, zeros in Hz.
  apply lookup_zip_with_Some in Hz as (x & b & -> & Hx & _).
  apply lookup_replicate in Hx as [-> _]. destruct b; lia.
Qed.

Lemma marks_pair_range guess secret :
  Forall (λ x, 0 ≤ x ≤ 2) (marks_pair guess secret).
Proof.
  unfold marks_pair. generalize (match_pass_range (zip_with Z.eqb guess secret)).
  generalize (match_pass (zip_with Z.eqb guess secret)).
  induction (np_unique guess) as [|c cs IH]; intros marks H; [done|].
  cbn [fold_left]. apply IH. rewrite pair_pass_closed. by apply set_ones_range.
Qed.

Lemma feedback_pair_horner guess secret :
  feedback_pair guess secret = horner (marks_pair guess secret).
Proof.
  unfold feedback_pair. apply encode_row_horner.
  rewrite marks_pair_length. lia.
Qed.

Lemma feedback_pair_bounds guess secret :
  0 ≤ feedback_pair guess secret ≤ 6560.
Proof.
  rewrite feedback_pair_horner.
  pose proof (horner_bounds _ (marks_pair_range guess secret)) as H.
  assert (3 ^ Z.of_nat (length (marks_pair guess secret)) ≤ 3 ^ 8).
  { apply Z.pow_le_mono_r; [lia|]. rewrite marks_pair_length. lia. }
  change (3 ^ 8) with 6561 in *. lia.
Qed.

Lemma feedback_pair_symbol guess secret p :
  length guess = 8%nat → length secret = 8%nat → (p < 8)%nat →
  symbol_at (feedback_pair guess secret) p = mark guess secret p.
Proof.
  intros Hg Hs Hp. rewrite feedback_pair_horner.
  apply symbol_at_horner; [apply marks_pair_range|].
  apply marks_pair_lookup; lia.
Qed.

Lemma compute_feedback_lookup guess all_secrets i secret :
  all_secrets !! i = Some secret →
  compute_feedback guess all_secrets !! i = Some (feedback_pair guess secret).
Proof.
  intros H. by rewrite compute_feedback_rows, list_lookup_fmap, H.
Qed.

Lemma mark_cases guess secret p :
  (mark guess secret p = 2 ∧ is_green guess secret p = true)
  ∨ (mark guess secret p = 1 ∧ is_green guess secret p = false
     ∧ p ∈ credited guess secret (default 0 (guess !! p)))
  ∨ (mark guess secret p = 0 ∧ is_green guess secret p = false
     ∧ p ∉ credited guess secret (default 0 (guess !! p))).
Proof.
  unfold mark. destruct (is_green guess secret p); [by left|right].
  case_bool_decide; [by left|by right].
Qed.

(** ** The all-match pattern *)

Lemma symbol_at_all_green p : (p < 8)%nat → symbol_at ALL_GREEN_HASH p = 2.
Proof.
  intros Hp. do 8 (destruct p as [|p]; [reflexivity|]). lia.
Qed.

Lemma marks_pair_self secret :
  length secret = 8%nat → marks_pair secret secret = replicate 8 2.
Proof.
  intros Hlen. apply list_eq. intros p.
  destruct (decide (p < 8)%nat) as [Hp|Hp].
  - rewrite marks_pair_lookup, lookup_replicate_2 by lia. f_equal.
    destruct (lookup_lt_is_Some_2 secret p) as [c Hc]; [lia|].
    unfold mark. by rewrite (is_green_lookup _ _ _ _ _ Hc Hc), Z.eqb_refl.
  - rewrite !lookup_ge_None_2; [done|rewrite length_replicate; lia|].
    rewrite marks_pair_length. lia.
Qed.

Lemma feedback_pair_all_green guess secret :
  length guess = 8%nat → length secret = 8%nat →
  feedback_pair guess secret = ALL_GREEN_HASH ↔ guess = secret.
Proof.
  intros Hg Hs. split.
  - intros Hh. apply list_eq. intros p.
    destruct (decide (p < 8)%nat) as [Hp|Hp].
    + pose proof (feedback_pair_symbol guess secret p Hg Hs Hp) as Hsym.
      rewrite Hh, symbol_at_all_green in Hsym by done.
      destruct (lookup_lt_is_Some_2 guess p) as [c Hc]; [lia|].
      destruct (lookup_lt_is_Some_2 secret p) as [d Hd]; [lia|].
      destruct (mark_cases guess secret p) as [[_ Hgr]|[[? _]|[? _]]];
        [|lia..].
      rewrite (is_green_lookup _ _ _ _ _ Hc Hd) in Hgr.
      apply Z.eqb_eq in Hgr. congruence.
    + rewrite !lookup_ge_None_2; [done|lia..].
  - intros ->. unfold feedback_pair. by rewrite marks_pair_self.
Qed.

(** C1.  For an 8-character guess and an 8-character secret at row [i] of
    the secrets array, entry [i] of [compute_feedback] is the all-match
    value, which is 6560, exactly when the guess equals that secret; so a
    secret guessed against itself always gives it and no unequal pair does. *)
Theorem all_green_iff_equal (guess : list Z) (all_secrets : list (list Z))
    (i : nat) (secret : list Z) :
  length guess = 8%nat → length secret = 8%nat →
  all_secrets !! i = Some secret →
  ALL_GREEN_HASH = 6560
  ∧ (compute_feedback guess all_secrets !! i = Some ALL_GREEN_HASH
     ↔ guess = secret).
Proof.
  intros Hg Hs Hi. split; [reflexivity|].
  rewrite (compute_feedback_lookup _ _ _ _ Hi).
  rewrite <- (feedback_pair_all_green guess secret Hg Hs).
  split; congruence.
Qed.

(** ** Which positions of a character are credited *)

Section Marked.
Context (guess secret : list Z) (c : Z).
Context (Hg : length guess = 8%nat) (Hs : length secret = 8%nat).
Local Abbreviation h := (feedback_pair guess secret).

Lemma where_eq_symbol p :
  p ∈ where_eq guess c →
  guess !! p = Some c ∧ symbol_at h p = mark guess secret p.
Proof.
  intros Hp%elem_of_where_eq. split; [done|].
  apply feedback_pair_symbol; [done..|].
  apply lookup_lt_Some in Hp. lia.
Qed.

Lemma credited_sublist :
  credited guess secret c `sublist_of` where_eq guess c.
Proof.
  unfold credited, nonmatch_positions.
  etrans; [apply sublist_take|apply sublist_filter].
Qed.

Lemma where_eq_NoDup : NoDup (where_eq guess c).
Proof. apply NoDup_filter, NoDup_seq. Qed.

Lemma marked_present :
  marked (λ x, x =? 1) guess h c = credited guess secret c.
Proof.
  unfold marked.
  etrans; [|exact (filter_sublist_id _ _ credited_sublist where_eq_NoDup)].
  apply filter_ext_elem. intros p [Hc Hsym]%where_eq_symbol.
  rewrite Hsym, Z.eqb_eq.
  pose proof (mark_cases guess secret p) as Hm.
  rewrite Hc in Hm. cbn [default] in Hm.
  destruct Hm as [[-> Hgr]|[[-> [_ Hin]]|[-> [_ Hn]]]]; split; try done.
  intros [_ Hng]%credited_nonmatch. congruence.
Qed.

Lemma marked_match :
  marked (λ x, x =? 2) guess h c = match_positions guess secret c.
Proof.
  unfold marked, match_positions.
  apply filter_ext_elem. intros p [Hc Hsym]%where_eq_symbol.
  rewrite Hsym, Z.eqb_eq.
  destruct (mark_cases guess secret p) as [[-> ->]|[[-> [-> _]]|[-> [-> _]]]];
    split; done || lia.
Qed.

Lemma marked_nonabsent :
  length (marked (λ x, negb (x =? 0)) guess h c)
  = (length (match_positions guess secret c)
     + length (credited guess secret c))%nat.
Proof.
  rewrite <- marked_match, <- marked_present. unfold marked.
  apply length_filter_split. intros p [_ Hsym]%where_eq_symbol.
  rewrite Hsym.
  destruct (mark_cases guess secret p) as [[-> _]|[[-> _]|[-> _]]];
    cbn; intuition congruence.
Qed.

Lemma uncredited_absent p :
  p ∈ drop (unconsumed guess secret c) (nonmatch_positions guess secret c) →
  symbol_at h p = 0.
Proof.
  intros Hp.
  assert (NoDup (nonmatch_positions guess secret c)) as Hnd.
  { apply NoDup_filter, where_eq_NoDup. }
  rewrite <- (take_drop (unconsumed guess secret c)) in Hnd.
  apply NoDup_app in Hnd as (_ & Hdisj & _).
  assert (p ∈ nonmatch_positions guess secret c) as Hnm.
  { eapply elem_of_sublist; [done|apply sublist_drop]. }
  apply elem_of_nonmatch in Hnm as [Hc Hng].
  destruct (where_eq_symbol p) as [_ ->]; [by apply elem_of_where_eq|].
  destruct (mark_cases guess secret p) as [[_ ?]|[[_ [_ Hin]]|[-> _]]];
    [congruence| |done].
  rewrite Hc, credited_take in Hin by lia. cbn [default] in Hin.
  by apply Hdisj in Hin.
Qed.
End Marked.

Lemma take_min_length {A} (l : list A) n :
  take (length l `min` n) l = take n l.
Proof.
  destruct (decide (n ≤ length l)%nat).
  - by rewrite Nat.min_r.
  - rewrite Nat.min_l, !take_ge by lia. done.
Qed.

Lemma drop_min_length {A} (l : list A) n :
  drop (length l `min` n) l = drop n l.
Proof.
  destruct (decide (n ≤ length l)%nat).
  - by rewrite Nat.min_r.
  - rewrite Nat.min_l, !drop_ge by lia. done.
Qed.

(** C2.  In the pattern that [compute_feedback] returns for a secret, the
    positions of character [c] of the guess that read present-elsewhere are
    exactly the first [k] non-match positions of [c] in the guess, left to
    right, where [k] is the smaller of the number of those positions and the
    number of occurrences of [c] in the secret that no match consumes; the
    non-match positions after them read absent.  For the guess 11111111 and a
    secret with exactly two 1s, exactly two positions read non-absent. *)
Theorem presence_marks_prefix (guess : list Z) (all_secrets : list (list Z))
    (i : nat) (secret : list Z) (h c : Z) :
  length guess = 8%nat → length secret = 8%nat →
  all_secrets !! i = Some secret →
  compute_feedback guess all_secrets !! i = Some h →
  let nm := nonmatch_positions guess secret c in
  let k := (length nm `min` unconsumed guess secret c)%nat in
  marked (λ x, x =? 1) guess h c = take k nm
  ∧ Forall (λ p, symbol_at h p = 0) (drop k nm)
  ∧ (guess = replicate 8 49 → occurrences 49 secret = 2%nat →
     length (marked (λ x, negb (x =? 0)) guess h 49) = 2%nat).
Proof.
  intros Hg Hs Hi Hh nm k.
  rewrite (compute_feedback_lookup _ _ _ _ Hi) in Hh. injection Hh as <-.
  subst k nm. rewrite take_min_length, drop_min_length.
  split; [|split].
  - rewrite marked_present by done. apply credited_take. lia.
  - apply Forall_forall. intros p Hp. by eapply uncredited_absent.
  - intros Hones Htwo. rewrite marked_nonabsent by done.
    rewrite credited_take, length_take by lia.
    pose proof (positions_split guess secret 49) as Hsplit.
    pose proof (match_positions_le guess secret 49) as Hle.
    assert (occurrences 49 guess = 8%nat) as Hocc by (by rewrite Hones).
    unfold unconsumed. lia.
Qed.

(** C3.  In the pattern that [compute_feedback] returns for a secret, the
    positions of character [c] of the guess that read match, together with
    those that read present-elsewhere, number at most the occurrences of [c]
    in the guess and at most the occurrences of [c] in the secret. *)
Theorem credits_bounded (guess : list Z) (all_secrets : list (list Z))
    (i : nat) (secret : list Z) (h c : Z) :
  length guess = 8%nat → length secret = 8%nat →
  all_secrets !! i = Some secret →
  compute_feedback guess all_secrets !! i = Some h →
  let matches := length (marked (λ x, x =? 2) guess h c) in
  let presents := length (marked (λ x, x =? 1) guess h c) in
  let credits := (matches + presents)%nat in
  (credits ≤ occurrences c guess)%nat ∧ (credits ≤ occurrences c secret)%nat.
Proof.
  intros Hg Hs Hi Hh matches presents credits.
  rewrite (compute_feedback_lookup _ _ _ _ Hi) in Hh. injection Hh as <-.
  subst credits matches presents. rewrite marked_match, marked_present by done.
  rewrite credited_take, length_take by lia.
  pose proof (positions_split guess secret c) as Hsplit.
  pose proof (match_positions_le guess secret c) as Hle.
  unfold unconsumed. lia.
Qed.

(** C9.  The batched computation is the per-pair computation mapped over the
    secrets: every entry depends only on the guess and on its own secret, so
    equal rows of two secret arrays give equal entries. *)
Theorem batched_is_pointwise (guess : list Z) (A B : list (list Z)) :
  compute_feedback guess A = map (feedback_pair guess) A
  ∧ ∀ i j : nat, A !! i = B !! j →
      compute_feedback guess A !! i = compute_feedback guess B !! j.
Proof.
  split; [apply compute_feedback_rows|].
  intros i j Hij.
  by rewrite !compute_feedback_rows, !list_lookup_fmap, Hij.
Qed.

(** ** [np.unique]: sorted, duplicate-free, no longer than its argument *)

Lemma unique_insert_sorted x l :
  StronglySorted Z.lt l → StronglySorted Z.lt (unique_insert x l).
Proof.
  induction 1 as [|y l Hl IH Hy]; cbn [unique_insert].
  - repeat constructor.
  - destruct (Z.ltb_spec x y) as [Hlt|Hge].
    + constructor; [by constructor|].
      constructor; [done|]. eapply Forall_impl; [exact Hy|]. cbn. lia.
    + destruct (Z.eqb_spec x y) as [->|Hne]; [by constructor|].
      constructor; [done|]. apply Forall_forall.
      intros z [->|Hz]%elem_of_unique_insert; [lia|].
      by eapply Forall_forall in Hy.
Qed.

Lemma np_unique_sorted a : StronglySorted Z.lt (np_unique a).
Proof.
  induction a as [|x a IH]; [constructor|].
  by apply unique_insert_sorted.
Qed.

Lemma np_unique_NoDup a : NoDup (np_unique a).
Proof.
  induction (np_unique_sorted a) as [|y l _ IH Hy]; constructor; [|done].
  intros Hin. eapply Forall_forall in Hy; [|done]. lia.
Qed.

Lemma unique_insert_length x l :
  (length (unique_insert x l) ≤ S (length l))%nat.
Proof.
  induction l as [|y l IH]; cbn [unique_insert]; [done|].
  destruct (x <? y); [done|]. destruct (x =? y); cbn [length]; lia.
Qed.

Lemma np_unique_length a : (length (np_unique a) ≤ length a)%nat.
Proof.
  induction a as [|x a IH]; [done|].
  unfold np_unique in *. cbn [foldr length].
  pose proof (unique_insert_length x (foldr unique_insert [] a)). lia.
Qed.

Lemma np_unique_size a :
  length (np_unique a) = size (list_to_set a : gset Z).
Proof.
  rewrite <- (size_list_to_set (C := gset Z)) by apply np_unique_NoDup.
  f_equal. apply set_eq. intros x.
  by rewrite !elem_of_list_to_set, elem_of_np_unique.
Qed.

(** ** The counting loop *)

Lemma to_int32_small z : 0 ≤ z < 2 ^ 31 → to_int32 z = z.
Proof.
  intros H. unfold to_int32. rewrite Z.mod_small; lia.
Qed.

Section FillLoop.
Context (f : nat → Z).
Local Abbreviation fill := (fold_left (λ (a : list Z) i, <[i := f i]> a)).

Lemma fill_length idxs : ∀ acc, length (fill idxs acc) = length acc.
Proof.
  induction idxs as [|i idxs IH]; intros acc; [done|].
  cbn [fold_left]. by rewrite IH, length_insert.
Qed.

Lemma fill_notin idxs gi : ∀ acc, gi ∉ idxs → fill idxs acc !! gi = acc !! gi.
Proof.
  induction idxs as [|i idxs IH]; intros acc Hgi; [done|].
  apply not_elem_of_cons in Hgi as [Hne Hgi].
  cbn [fold_left].
  rewrite IH by done. by apply list_lookup_insert_ne.
Qed.

Lemma fill_in idxs gi : ∀ acc,
  gi ∈ idxs → (gi < length acc)%nat → fill idxs acc !! gi = Some (f gi).
Proof.
  induction idxs as [|i idxs IH]; intros acc Hgi Hlen.
  - by apply elem_of_nil in Hgi.
  - cbn [fold_left].
    destruct (decide (gi ∈ idxs)) as [Hin|Hnin].
    + apply IH; [done|]. by rewrite length_insert.
    + apply elem_of_cons in Hgi as [->|?]; [|done].
      rewrite fill_notin by done. by apply list_lookup_insert_eq.
Qed.
End FillLoop.

Lemma num_patterns_length encoded :
  length (num_patterns_of encoded) = length encoded.
Proof.
  unfold num_patterns_of, zeros. by rewrite fill_length, length_replicate.
Qed.

Lemma num_patterns_lookup encoded gi g :
  encoded !! gi = Some g →
  num_patterns_of encoded !! gi = Some (to_int32 (count_patterns encoded g)).
Proof.
  intros Hg. unfold num_patterns_of.
  rewrite (fill_in (λ gi,
    to_int32 (count_patterns encoded (default [] (encoded !! gi))))).
  - by rewrite Hg.
  - apply elem_of_seq. apply lookup_lt_Some in Hg. lia.
  - unfold zeros. rewrite length_replicate. by apply lookup_lt_Some in Hg.
Qed.

Lemma elem_of_compute_feedback guess encoded h :
  h ∈ compute_feedback guess encoded
  ↔ ∃ secret, secret ∈ encoded ∧ h = feedback_pair guess secret.
Proof.
  rewrite compute_feedback_rows, list_elem_of_fmap.
  split; intros (s & H1 & H2); by exists s.
Qed.

Lemma unique_hashes_length guess encoded :
  Z.of_nat (length (np_unique (compute_feedback guess encoded))) ≤ 6561.
Proof.
  rewrite <- (Z2Nat.id 6561) by lia. apply inj_le.
  rewrite <- (length_seqZ 0 6561).
  apply submseteq_length, NoDup_submseteq; [apply np_unique_NoDup|].
  intros h (s & _ & ->)%elem_of_np_unique%elem_of_compute_feedback.
  apply elem_of_seqZ. pose proof (feedback_pair_bounds guess s). lia.
Qed.

Lemma count_patterns_size encoded g :
  count_patterns encoded g
  = Z.of_nat (size ((list_to_set (compute_feedback g encoded) : gset Z)
                    ∖ {[ALL_GREEN_HASH]})).
Proof.
  unfold count_patterns. rewrite np_unique_size.
  set (X := list_to_set _ : gset Z).
  case_bool_decide as Hin; rewrite elem_of_np_unique in Hin.
  - assert (ALL_GREEN_HASH ∈ X) as HX by by apply elem_of_list_to_set.
    rewrite size_difference by by apply singleton_subseteq_l.
    rewrite size_singleton.
    assert (size X ≠ 0%nat); [|lia].
    apply size_non_empty_iff. intros Hempty. by rewrite Hempty in HX.
  - rewrite difference_disjoint_L; [lia|].
    apply disjoint_singleton_r. unfold X. by rewrite elem_of_list_to_set.
Qed.

Lemma count_patterns_int32 encoded g :
  to_int32 (count_patterns encoded g) = count_patterns encoded g.
Proof.
  apply to_int32_small. split.
  - rewrite count_patterns_size. lia.
  - unfold count_patterns.
    pose proof (unique_hashes_length g encoded).
    case_bool_decide; change (2 ^ 31) with 2147483648; lia.
Qed.

Lemma p_solve2_lookup num_patterns N gi k :
  num_patterns !! gi = Some k →
  p_solve2_of num_patterns N !! gi = Some (true_divide k N).
Proof.
  intros H. unfold p_solve2_of. by rewrite list_lookup_fmap, H.
Qed.

(** C4.  For a guess [g] of the candidate list, [num_patterns[g]] is the
    number of distinct encoded feedback values that [g] produces across all
    candidates, the all-match value left out, and the probability reported
    for it is that number divided by the number of candidates. *)
Theorem num_patterns_distinct (encoded : list (list Z)) (gi : nat)
    (g : list Z) :
  encoded !! gi = Some g →
  let N := length encoded in
  let distinct : gset Z :=
    list_to_set (compute_feedback g encoded) ∖ {[ALL_GREEN_HASH]} in
  num_patterns_of encoded !! gi = Some (Z.of_nat (size distinct))
  ∧ p_solve2_of (num_patterns_of encoded) N !! gi
    = Some (inject_Z (Z.of_nat (size distinct)) / inject_Z (Z.of_nat N))%Q.
Proof.
  intros Hg N distinct.
  assert (num_patterns_of encoded !! gi = Some (Z.of_nat (size distinct)))
    as Hk.
  { rewrite (num_patterns_lookup _ _ _ Hg), count_patterns_int32.
    by rewrite count_patterns_size. }
  split; [done|]. by rewrite (p_solve2_lookup _ _ _ _ Hk).
Qed.

(** ** Range of the count and of the probability *)

Lemma true_divide_pos k N :
  (0 < N)%nat → (0 < true_divide k N)%Q ↔ 0 < k.
Proof.
  intros HN. unfold true_divide.
  assert (0 < Z.of_nat N) as Hz by lia.
  destruct (Z.of_nat N) as [|p|p]; [lia| |lia].
  unfold Qdiv, Qmult, Qinv, Qlt, inject_Z. cbn. lia.
Qed.

Lemma true_divide_nonneg k N : 0 ≤ k → (0 <= true_divide k N)%Q.
Proof.
  intros Hk. unfold true_divide.
  assert (0 ≤ Z.of_nat N) as Hz by lia.
  destruct (Z.of_nat N) as [|p|p];
    unfold Qdiv, Qmult, Qinv, Qle, inject_Z; cbn; lia.
Qed.

Lemma true_divide_lt_1 k N : k < Z.of_nat N → (true_divide k N < 1)%Q.
Proof.
  intros Hk. unfold true_divide.
  assert (0 ≤ Z.of_nat N) as Hz by lia.
  destruct (Z.of_nat N) as [|p|p];
    unfold Qdiv, Qmult, Qinv, Qlt, inject_Z; cbn; lia.
Qed.

Section Candidates.
Context (encoded : list (list Z)) (gi : nat) (g : list Z).
Context (Hshape : Forall (λ s, length s = 8%nat) encoded).
Context (Hg : encoded !! gi = Some g).

Lemma candidate_length s : s ∈ encoded → length s = 8%nat.
Proof. intros Hs. by eapply Forall_forall in Hshape. Qed.

Lemma own_pattern_all_green :
  ALL_GREEN_HASH ∈ compute_feedback g encoded.
Proof.
  assert (g ∈ encoded) as Hin by by eapply list_elem_of_lookup_2.
  apply elem_of_compute_feedback. exists g. split; [done|].
  symmetry. by apply feedback_pair_all_green; try apply candidate_length.
Qed.

Lemma count_patterns_upper :
  count_patterns encoded g ≤ Z.of_nat (length encoded) - 1.
Proof.
  unfold count_patterns.
  rewrite bool_decide_eq_true_2
    by (apply elem_of_np_unique, own_pattern_all_green).
  pose proof (np_unique_length (compute_feedback g encoded)) as Hle.
  assert (length (compute_feedback g encoded) = length encoded) as Hn
    by (by rewrite compute_feedback_rows, length_map).
  lia.
Qed.

Lemma count_patterns_pos :
  1 ≤ count_patterns encoded g ↔ ∃ s, s ∈ encoded ∧ s ≠ g.
Proof.
  assert (length g = 8%nat) as Hlen
    by (apply candidate_length; by eapply list_elem_of_lookup_2).
  rewrite count_patterns_size.
  set (D := _ ∖ _ : gset Z). split.
  - intros Hpos. destruct (size_pos_elem_of D) as [h Hh]; [lia|].
    apply elem_of_difference in Hh as [Hh Hne].
    apply elem_of_list_to_set, elem_of_compute_feedback in Hh
      as (s & Hs & ->).
    exists s. split; [done|]. intros ->. apply Hne.
    apply elem_of_singleton. by apply feedback_pair_all_green.
  - intros (s & Hs & Hne).
    assert (size D ≠ 0%nat); [|lia].
    apply size_non_empty_iff.
    intros Hempty. apply (not_elem_of_empty (C := gset Z)
                            (feedback_pair g s)).
    rewrite <- Hempty. apply elem_of_difference. split.
    + apply elem_of_list_to_set, elem_of_compute_feedback. by exists s.
    + rewrite elem_of_singleton.
      rewrite feedback_pair_all_green; [congruence|done|].
      by apply candidate_length.
Qed.
End Candidates.

(** C5, as the code has it.  For a guess [g] of a candidate list of
    8-character rows, [num_patterns[g]] is an integer from 0 to [N - 1] and
    the probability [num_patterns[g] / N] is at least 0 and below 1; the count
    is at least 1, and the probability positive, exactly when the list has an
    entry different from [g]. *)
Theorem num_patterns_range (encoded : list (list Z)) (gi : nat) (g : list Z) :
  Forall (λ s, length s = 8%nat) encoded →
  encoded !! gi = Some g →
  let N := length encoded in
  ∃ k, num_patterns_of encoded !! gi = Some k
       ∧ p_solve2_of (num_patterns_of encoded) N !! gi
         = Some (true_divide k N)
       ∧ 0 ≤ k ≤ Z.of_nat N - 1
       ∧ (0 <= true_divide k N)%Q ∧ (true_divide k N < 1)%Q
       ∧ (1 ≤ k ↔ ∃ s, s ∈ encoded ∧ s ≠ g)
       ∧ ((0 < true_divide k N)%Q ↔ ∃ s, s ∈ encoded ∧ s ≠ g).
Proof.
  intros Hshape Hg N. exists (count_patterns encoded g).
  assert (num_patterns_of encoded !! gi = Some (count_patterns encoded g))
    as Hk by (by rewrite (num_patterns_lookup _ _ _ Hg), count_patterns_int32).
  pose proof (count_patterns_upper encoded gi g Hshape Hg) as Hup.
  pose proof (count_patterns_pos encoded gi g Hshape Hg) as Hpos.
  assert (0 ≤ count_patterns encoded g) as Hlo
    by (rewrite count_patterns_size; lia).
  assert (0 < N)%nat as HN by (apply lookup_lt_Some in Hg; lia).
  repeat split; try (lia || tauto).
  - by apply p_solve2_lookup.
  - by apply true_divide_nonneg.
  - apply true_divide_lt_1. lia.
  - intros Hp%true_divide_pos; [|done]. apply Hpos. lia.
  - intros Hs%Hpos. apply true_divide_pos; [done|lia].
Qed.

(** C5 as stated fails for a list with a single candidate: its count is 0,
    which is outside [[1, N - 1]], and its probability is 0.  A file with one
    line gives such a list, and the run saves that row. *)
Lemma single_candidate_count :
  let g := [49; 43; 50; 43; 51; 61; 48; 54] in
  let encoded := [g] in
  let N := length encoded in
  let w := World "/home/user/nerdle" true (Some [g ++ [10]]) None in
  Forall (λ s, length s = 8%nat) encoded
  ∧ num_patterns_of encoded !! 0%nat = Some 0
  ∧ p_solve2_of (num_patterns_of encoded) N !! 0%nat = Some (0 # 1)%Q
  ∧ ¬ (1 ≤ 0 ≤ Z.of_nat N - 1)
  ∧ ¬ (0 < 0 # 1)%Q
  ∧ csv_file (snd (main w)) = Some [CsvRow 1 g 0 (0 # 1)%Q].
Proof.
  cbv zeta. split; [by repeat constructor|].
  split; [by vm_compute|]. split; [by vm_compute|].
  split; [cbn; lia|]. split; by vm_compute.
Qed.

(** ** Ranking *)

#[local] Instance key_le_total keys : Total (key_le keys).
Proof.
  intros i j. unfold key_le. rewrite !Qle_bool_iff.
  destruct (Qlt_le_dec (default 0%Q (keys !! i)) (default 0%Q (keys !! j)));
    [left; by apply Qlt_le_weak|by right].
Qed.

#[local] Instance key_le_trans keys : Transitive (key_le keys).
Proof.
  intros i j k. unfold key_le. rewrite !Qle_bool_iff. apply Qle_trans.
Qed.

Lemma StronglySorted_lookup {A} (R : relation A) `{!Reflexive R} l :
  StronglySorted R l →
  ∀ i j a b, (i ≤ j)%nat → l !! i = Some a → l !! j = Some b → R a b.
Proof.
  induction 1 as [|x l Hl IH Hx]; intros i j a b Hij Hi Hj; [done|].
  destruct i as [|i], j as [|j]; cbn in Hi, Hj; try lia.
  - by assert (a = b) as -> by congruence.
  - injection Hi as <-. eapply Forall_forall in Hx; [done|].
    by eapply list_elem_of_lookup_2.
  - eapply (IH i j); [lia|done..].
Qed.

#[local] Instance key_le_refl keys : Reflexive (key_le keys).
Proof. intros i. unfold key_le. rewrite Qle_bool_iff. apply Qle_refl. Qed.

Lemma ranking_descending p_solve2 i j a b :
  (i ≤ j)%nat →
  ranking p_solve2 !! i = Some a → ranking p_solve2 !! j = Some b →
  (default 0 (p_solve2 !! b) <= default 0 (p_solve2 !! a))%Q.
Proof.
  intros Hij Ha Hb.
  pose proof (StronglySorted_merge_sort (key_le (map Qopp p_solve2))
                (seq 0 (length (map Qopp p_solve2)))) as Hsorted.
  pose proof (StronglySorted_lookup _ _ Hsorted i j a b Hij Ha Hb) as Hle.
  unfold key_le in Hle. apply Qle_bool_iff in Hle.
  rewrite !list_lookup_fmap in Hle.
  destruct (p_solve2 !! a) as [pa|], (p_solve2 !! b) as [pb|];
    cbn in *; unfold Qle, Qopp in *; cbn in *; lia.
Qed.

Lemma ranking_Permutation p_solve2 :
  ranking p_solve2 ≡ₚ seq 0 (length p_solve2).
Proof.
  unfold ranking, argsort. rewrite merge_sort_Permutation.
  by rewrite length_map.
Qed.

(** ** The run as a whole *)

Lemma main_done w w' :
  main w = (inr (), w') →
  ∃ solutions encoded,
    data_exists w = true
    ∧ load_solutions (data_file w) = inr solutions
    ∧ encode_solutions solutions = inr encoded
    ∧ let num_patterns := num_patterns_of encoded in
      let p_solve2 := p_solve2_of num_patterns (length solutions) in
      csv_file w'
      = Some (csv_rows solutions num_patterns p_solve2 (ranking p_solve2)).
Proof.
  unfold main, raise. destruct (data_exists w) eqn:Hex; cbn [negb]; [|done].
  destruct (load_solutions (data_file w)) as [e|solutions] eqn:Hload; [done|].
  destruct (encode_solutions solutions) as [e|encoded] eqn:Henc; [done|].
  destruct (ranking _ !! 0%nat); [|done].
  intros [= <-]. by exists solutions, encoded.
Qed.

Lemma main_raises_unchanged w e w' : main w = (inl e, w') → w' = w.
Proof.
  unfold main, raise. destruct (data_exists w); cbn [negb]; [|by intros [= _ <-]].
  destruct (load_solutions (data_file w)) as [e1|solutions];
    [by intros [= _ <-]|].
  destruct (encode_solutions solutions) as [e2|encoded];
    [by intros [= _ <-]|].
  destruct (ranking _ !! 0%nat); [done|by intros [= _ <-]].
Qed.

Lemma csv_rows_lookup solutions num_patterns p_solve2 order i row :
  csv_rows solutions num_patterns p_solve2 order !! i = Some row →
  ∃ idx, order !! i = Some idx
         ∧ row_rank row = S i
         ∧ row_guess row = default [] (solutions !! idx)
         ∧ row_patterns row = default 0 (num_patterns !! idx)
         ∧ row_p row = default 0%Q (p_solve2 !! idx).
Proof.
  unfold csv_rows. rewrite list_lookup_imap.
  destruct (order !! i) as [idx|]; [|done].
  intros [= <-]. by exists idx.
Qed.

(** C6.  The ordering [argsort(-p_solve2)] lists the guesses by descending
    probability, and so do the rows of the table a completed run saves: for
    ranks [i ≤ j] the probability at rank [i] is at least the one at rank
    [j]. *)
Theorem table_sorted_descending (w w' : world) (rows : list csv_row) :
  main w = (inr (), w') →
  csv_file w' = Some rows →
  (∀ (p_solve2 : list Q) (i j a b : nat),
     (i ≤ j)%nat →
     ranking p_solve2 !! i = Some a → ranking p_solve2 !! j = Some b →
     (default 0 (p_solve2 !! b) <= default 0 (p_solve2 !! a))%Q)
  ∧ ∀ (i j : nat) (ri rj : csv_row),
      (i ≤ j)%nat → rows !! i = Some ri → rows !! j = Some rj →
      row_rank ri = S i ∧ row_rank rj = S j ∧ (row_p rj <= row_p ri)%Q.
Proof.
  intros Hmain Hcsv. split; [apply ranking_descending|].
  apply main_done in Hmain as (solutions & encoded & _ & _ & _ & Hrows).
  cbv zeta in Hrows. rewrite Hrows in Hcsv. injection Hcsv as <-.
  intros i j ri rj Hij Hi Hj.
  apply csv_rows_lookup in Hi as (a & Ha & Hri & _ & _ & ->).
  apply csv_rows_lookup in Hj as (b & Hb & Hrj & _ & _ & ->).
  repeat split; [done..|]. by eapply ranking_descending.
Qed.

(** ** The loader *)

Lemma assert_lengths_spec solutions :
  (Forall (λ s, length s = 8%nat) solutions
   ∧ assert_lengths solutions = inr ())
  ∨ (∃ pre s post,
       solutions = pre ++ s :: post
       ∧ Forall (λ s, length s = 8%nat) pre
       ∧ length s ≠ 8%nat
       ∧ assert_lengths solutions = inl (AssertionError s (length s))).
Proof.
  induction solutions as [|s rest IH]; [by left|].
  cbn [assert_lengths]. case_decide as Hlen.
  - destruct IH as [[Hall Hok]|(pre & t & post & -> & Hpre & Ht & Herr)].
    + left. split; [by constructor|done].
    + right. exists (s :: pre), t, post. repeat split; try done.
      by constructor.
  - right. by exists [], s, rest.
Qed.

Lemma load_solutions_spec lines :
  let entries := filter (λ s, s ≠ []) (map strip lines) in
  (Forall (λ s, length s = 8%nat) entries
   ∧ load_solutions (Some lines) = inr entries)
  ∨ (∃ pre s post,
       entries = pre ++ s :: post
       ∧ Forall (λ s, length s = 8%nat) pre
       ∧ length s ≠ 8%nat
       ∧ load_solutions (Some lines) = inl (AssertionError s (length s))).
Proof.
  intros entries. unfold load_solutions. fold entries.
  destruct (assert_lengths_spec entries)
    as [[Hall Hok]|(pre & s & post & Hsplit & Hpre & Hs & Herr)].
  - left. by rewrite Hok.
  - right. exists pre, s, post. by rewrite Herr.
Qed.

(** C7.  On a readable input, [load_solutions] fails exactly when some entry
    (a stripped, non-empty line) has a length other than 8, and it does so
    with an assertion error that names the first such entry and its length;
    otherwise it returns the entries, each 8 characters long, in source
    order. *)
Theorem load_solutions_validates (lines : list (list Z)) :
  let entries := filter (λ s, s ≠ []) (map strip lines) in
  ((∃ e, load_solutions (Some lines) = inl e)
   ↔ Exists (λ s, length s ≠ 8%nat) entries)
  ∧ match load_solutions (Some lines) with
    | inr solutions =>
        solutions = entries ∧ Forall (λ s, length s = 8%nat) solutions
    | inl e =>
        ∃ pre s post,
          entries = pre ++ s :: post
          ∧ Forall (λ s, length s = 8%nat) pre
          ∧ length s ≠ 8%nat
          ∧ e = AssertionError s (length s)
    end.
Proof.
  intros entries.
  destruct (load_solutions_spec lines)
    as [[Hall ->]|(pre & s & post & Hsplit & Hpre & Hs & ->)];
    fold entries in Hall || fold entries in Hsplit.
  - split; [|done]. split; [by intros [e ?]|].
    intros Hex. exfalso. apply Exists_exists in Hex as (s & Hin & Hs).
    by eapply Forall_forall in Hall.
  - split; [|by exists pre, s, post]. split; [|by eexists].
    intros _. rewrite Hsplit. apply Exists_app. right. by left.
Qed.

(** ** Stripping *)

Lemma lstrip_spaces ws s :
  Forall (λ c, is_space c = true) ws → lstrip (ws ++ s) = lstrip s.
Proof.
  induction 1 as [|c ws Hc _ IH]; [done|].
  cbn [app lstrip]. by rewrite Hc.
Qed.

Lemma lstrip_app s ws :
  Forall (λ c, is_space c = true) ws →
  lstrip (s ++ ws) = match lstrip s with [] => [] | _ => lstrip s ++ ws end.
Proof.
  intros Hws. induction s as [|c s IH]; cbn [app lstrip].
  - rewrite <- (app_nil_r ws). by rewrite lstrip_spaces.
  - destruct (is_space c); [exact IH|done].
Qed.

Lemma rstrip_spaces s ws :
  Forall (λ c, is_space c = true) ws → rstrip (s ++ ws) = rstrip s.
Proof.
  intros Hws. unfold rstrip. rewrite reverse_app, lstrip_spaces; [done|].
  by apply Forall_reverse.
Qed.

Lemma strip_padded pad_l s pad_r :
  Forall (λ c, is_space c = true) pad_l →
  Forall (λ c, is_space c = true) pad_r →
  strip (pad_l ++ s ++ pad_r) = strip s.
Proof.
  intros Hl Hr. unfold strip. rewrite lstrip_spaces, lstrip_app by done.
  destruct (lstrip s) as [|c t] eqn:Hs; [done|].
  by rewrite rstrip_spaces.
Qed.

Lemma strip_blank blank :
  Forall (λ c, is_space c = true) blank → strip blank = [].
Proof.
  intros H. unfold strip.
  assert (lstrip blank = []) as ->; [|done].
  rewrite <- (app_nil_r blank). by rewrite lstrip_spaces.
Qed.

Lemma load_solutions_same_entries lines lines' :
  filter (λ s, s ≠ []) (map strip lines)
  = filter (λ s, s ≠ []) (map strip lines') →
  load_solutions (Some lines) = load_solutions (Some lines').
Proof. unfold load_solutions. by intros ->. Qed.

(** C10.  [load_solutions] validates the stripped lines and passes over
    lines that are empty or hold only whitespace: a blank line anywhere in
    the input changes nothing, whitespace around a line changes nothing, and
    a line is measured after stripping (a 5-character word padded to 8
    characters fails with length 5; a lone blank line loads as no entry). *)
Theorem load_solutions_strips (before after : list (list Z))
    (blank pad_l pad_r s : list Z) :
  Forall (λ c, is_space c = true) blank →
  Forall (λ c, is_space c = true) pad_l →
  Forall (λ c, is_space c = true) pad_r →
  load_solutions (Some (before ++ blank :: after))
  = load_solutions (Some (before ++ after))
  ∧ load_solutions (Some (before ++ (pad_l ++ s ++ pad_r) :: after))
    = load_solutions (Some (before ++ s :: after))
  ∧ load_solutions (Some [[32; 49; 43; 50; 61; 51; 32; 10]])
    = inl (AssertionError [49; 43; 50; 61; 51] 5)
  ∧ load_solutions (Some [[32; 9; 10]]) = inr [].
Proof.
  intros Hb Hl Hr. repeat split; try reflexivity.
  - apply load_solutions_same_entries.
    rewrite !map_app, !filter_app, map_cons, filter_cons_False; [done|].
    rewrite strip_blank by done. by intros ?.
  - apply load_solutions_same_entries.
    rewrite !map_app, !map_cons, !filter_app. by rewrite strip_padded.
Qed.

(** ** Missing or unreadable input *)

Lemma append_assoc (s1 s2 s3 : string) :
  (s1 +:+ s2) +:+ s3 = s1 +:+ s2 +:+ s3.
Proof.
  induction s1 as [|c s1 IH]; [done|].
  change (String c ((s1 +:+ s2) +:+ s3) = String c (s1 +:+ s2 +:+ s3)).
  by f_equal.
Qed.

Lemma path_join_suffix dir name : ∃ prefix, path_join dir name = prefix +:+ name.
Proof.
  unfold path_join. repeat case_bool_decide.
  - by exists "".
  - by exists dir.
  - exists (dir +:+ "/"). by rewrite append_assoc.
Qed.

Lemma main_missing w :
  data_exists w = false →
  main w = (inl (SystemExit (not_found_message w)), w).
Proof. intros H. unfold main. by rewrite H. Qed.

Lemma main_unreadable w :
  data_exists w = true → data_file w = None → main w = (inl FileError, w).
Proof. intros Hex Hfile. unfold main. by rewrite Hex, Hfile. Qed.

(** C8, as the code has it.  When the input does not exist the run ends with
    an exit whose message names the expected file and the place to download
    it from; when it exists but cannot be opened or read the run ends with the
    error that [open] raises.  Either way nothing is computed and the world,
    the output table included, is left as it was. *)
Theorem missing_input_aborts (w : world) :
  data_exists w = false ∨ data_file w = None →
  main w
  = (inl (if data_exists w then FileError
          else SystemExit (not_found_message w)), w)
  ∧ not_found_message w
    = "ERROR: " +:+ data_path w +:+ " not found. Download it from "
      +:+ "https://github.com/pedrokkrause/Nerdle-Equations"
  ∧ ∃ prefix, data_path w = prefix +:+ "NerdleClassicRestricted.txt".
Proof.
  intros Hbad. split; [|split; [done|apply path_join_suffix]].
  destruct (data_exists w) eqn:Hex.
  - destruct Hbad as [?|Hfile]; [done|]. by apply main_unreadable.
  - by apply main_missing.
Qed.

(** C8 as stated fails for an input that exists but cannot be read: the run
    ends with the error of [open], not with the exit message. *)
Lemma unreadable_input_no_message :
  let w := World "/home/user/nerdle" true None None in
  data_file w = None
  ∧ main w = (inl FileError, w)
  ∧ ∀ message, fst (main w) ≠ inl (SystemExit message).
Proof. cbv zeta. by repeat split. Qed.

(** ** Encoding the loaded solutions *)

Lemma encode_row_inv s row :
  length s = 8%nat →
  fold_left encode_cell (imap pair s) (mret (zeros 8)) = inr row → row = s.
Proof.
  intros Hlen.
  do 8 (destruct s as [|? s]; [done|]). destruct s; [|done].
  cbn. unfold store_uint8.
  repeat (match goal with
          | |- context [(0 <=? ?c) && (?c <=? 255)] =>
              destruct ((0 <=? c) && (c <=? 255)); cbn; [|done]
          end).
  by intros [= <-].
Qed.

Lemma encode_solutions_inv solutions : ∀ encoded,
  Forall (λ s, length s = 8%nat) solutions →
  encode_solutions solutions = inr encoded → encoded = solutions.
Proof.
  unfold encode_solutions.
  induction solutions as [|s rest IH]; intros encoded Hshape.
  - by intros [= <-].
  - apply Forall_cons in Hshape as [Hs Hrest]. cbn [mapM].
    destruct (fold_left encode_cell (imap pair s) (mret (zeros 8)))
      as [e|row] eqn:Hrow; [done|].
    apply encode_row_inv in Hrow as ->; [|done].
    cbn. destruct (mapM _ rest) as [e|enc] eqn:Hrest'; [done|].
    cbn. intros [= <-]. f_equal. by apply IH.
Qed.

Lemma main_candidates w w' :
  main w = (inr (), w') →
  ∃ encoded,
    load_solutions (data_file w) = inr encoded
    ∧ encode_solutions encoded = inr encoded
    ∧ Forall (λ s, length s = 8%nat) encoded
    ∧ csv_file w'
      = Some (csv_rows encoded (num_patterns_of encoded)
                (p_solve2_of (num_patterns_of encoded) (length encoded))
                (ranking (p_solve2_of (num_patterns_of encoded)
                            (length encoded)))).
Proof.
  intros (solutions & encoded & _ & Hload & Henc & Hcsv)%main_done.
  assert (Forall (λ s, length s = 8%nat) solutions) as Hshape.
  { destruct (data_file w) as [lines|]; [|done].
    pose proof (load_solutions_spec lines) as Hspec. cbv zeta in Hspec.
    destruct Hspec as [[Hall Hok]|(? & ? & ? & _ & _ & _ & Herr)];
      congruence. }
  apply encode_solutions_inv in Henc as Heq; [|done]. subst encoded.
  by exists solutions.
Qed.

(** * Instances on concrete inputs

    The words used below: [1+2+3=06], [1+2+4=07], [9-8-1=00] and
    [11-3-8=0]. *)

Lemma all_green_iff_equal_witness :
  let guess := [49; 43; 50; 43; 51; 61; 48; 54] in
  let all_secrets := [[57; 45; 56; 45; 49; 61; 48; 48]; guess] in
  ALL_GREEN_HASH = 6560
  ∧ (compute_feedback guess all_secrets !! 1%nat = Some ALL_GREEN_HASH
     ↔ guess = guess).
Proof.
  cbv zeta.
  apply (all_green_iff_equal [49; 43; 50; 43; 51; 61; 48; 54]
           [[57; 45; 56; 45; 49; 61; 48; 48]; [49; 43; 50; 43; 51; 61; 48; 54]]
           1 [49; 43; 50; 43; 51; 61; 48; 54]); reflexivity.
Defined.

Lemma presence_marks_prefix_witness :
  let guess := replicate 8 49 in
  let secret := [49; 49; 45; 51; 45; 56; 61; 48] in
  let nm := nonmatch_positions guess secret 49 in
  let k := (length nm `min` unconsumed guess secret 49)%nat in
  occurrences 49 secret = 2%nat
  ∧ marked (λ x, x =? 1) guess 8 49 = take k nm
  ∧ Forall (λ p, symbol_at 8 p = 0) (drop k nm)
  ∧ length (marked (λ x, negb (x =? 0)) guess 8 49) = 2%nat.
Proof.
  cbv zeta. split; [reflexivity|].
  destruct (presence_marks_prefix (replicate 8 49)
              [[49; 49; 45; 51; 45; 56; 61; 48]] 0
              [49; 49; 45; 51; 45; 56; 61; 48] 8 49
              eq_refl eq_refl eq_refl eq_refl) as (Hpresent & Habsent & Hones).
  split; [exact Hpresent|]. split; [exact Habsent|].
  exact (Hones eq_refl eq_refl).
Defined.

Lemma credits_bounded_witness :
  let guess := [49; 43; 50; 43; 51; 61; 48; 54] in
  let secret := [57; 45; 56; 45; 49; 61; 48; 48] in
  let matches := length (marked (λ x, x =? 2) guess 1945 48) in
  let presents := length (marked (λ x, x =? 1) guess 1945 48) in
  (matches + presents ≤ occurrences 48 guess)%nat
  ∧ (matches + presents ≤ occurrences 48 secret)%nat.
Proof.
  cbv zeta.
  apply (credits_bounded [49; 43; 50; 43; 51; 61; 48; 54]
           [[57; 45; 56; 45; 49; 61; 48; 48]] 0
           [57; 45; 56; 45; 49; 61; 48; 48] 1945 48); reflexivity.
Defined.

Lemma num_patterns_distinct_witness :
  let g := [49; 43; 50; 43; 51; 61; 48; 54] in
  let encoded :=
    [g; [49; 43; 50; 43; 52; 61; 48; 55]; [57; 45; 56; 45; 49; 61; 48; 48]] in
  let distinct : gset Z :=
    list_to_set (compute_feedback g encoded) ∖ {[ALL_GREEN_HASH]} in
  num_patterns_of encoded !! 0%nat = Some (Z.of_nat (size distinct))
  ∧ p_solve2_of (num_patterns_of encoded) 3 !! 0%nat
    = Some (inject_Z (Z.of_nat (size distinct)) / inject_Z (Z.of_nat 3))%Q.
Proof.
  cbv zeta.
  apply (num_patterns_distinct
           [[49; 43; 50; 43; 51; 61; 48; 54];
            [49; 43; 50; 43; 52; 61; 48; 55];
            [57; 45; 56; 45; 49; 61; 48; 48]] 0
           [49; 43; 50; 43; 51; 61; 48; 54]); reflexivity.
Defined.

Lemma num_patterns_range_witness :
  let g := [49; 43; 50; 43; 51; 61; 48; 54] in
  let encoded :=
    [g; [49; 43; 50; 43; 52; 61; 48; 55]; [57; 45; 56; 45; 49; 61; 48; 48]] in
  ∃ k, num_patterns_of encoded !! 0%nat = Some k
       ∧ p_solve2_of (num_patterns_of encoded) 3 !! 0%nat
         = Some (true_divide k 3)
       ∧ 0 ≤ k ≤ Z.of_nat 3 - 1
       ∧ (0 <= true_divide k 3)%Q ∧ (true_divide k 3 < 1)%Q
       ∧ (1 ≤ k ↔ ∃ s, s ∈ encoded ∧ s ≠ g)
       ∧ ((0 < true_divide k 3)%Q ↔ ∃ s, s ∈ encoded ∧ s ≠ g).
Proof.
  cbv zeta.
  apply (num_patterns_range
           [[49; 43; 50; 43; 51; 61; 48; 54];
            [49; 43; 50; 43; 52; 61; 48; 55];
            [57; 45; 56; 45; 49; 61; 48; 48]] 0
           [49; 43; 50; 43; 51; 61; 48; 54]).
  - repeat constructor.
  - reflexivity.
Defined.

Lemma table_sorted_descending_witness :
  let w :=
    World "/home/user/nerdle" true
      (Some [[49; 43; 50; 43; 51; 61; 48; 54; 10]; [32; 10];
             [32; 49; 43; 50; 43; 52; 61; 48; 55; 32; 10];
             [57; 45; 56; 45; 49; 61; 48; 48]])
      None in
  main w = (inr (), snd (main w))
  ∧ ∀ (i j : nat) (ri rj : csv_row),
      (i ≤ j)%nat →
      default [] (csv_file (snd (main w))) !! i = Some ri →
      default [] (csv_file (snd (main w))) !! j = Some rj →
      row_rank ri = S i ∧ row_rank rj = S j ∧ (row_p rj <= row_p ri)%Q.
Proof.
  cbv zeta. split; [by vm_compute|].
  set (w := World _ _ _ _).
  assert (main w = (inr (), snd (main w))) as Hmain by by vm_compute.
  assert (csv_file (snd (main w))
          = Some (default [] (csv_file (snd (main w))))) as Hcsv
    by by vm_compute.
  exact (proj2 (table_sorted_descending w _ _ Hmain Hcsv)).
Defined.

Lemma missing_input_aborts_witness :
  let w := World "/home/user/nerdle" false None None in
  main w = (inl (SystemExit (not_found_message w)), w)
  ∧ not_found_message w
    = "ERROR: " +:+ data_path w +:+ " not found. Download it from "
      +:+ "https://github.com/pedrokkrause/Nerdle-Equations"
  ∧ ∃ prefix, data_path w = prefix +:+ "NerdleClassicRestricted.txt".
Proof.
  cbv zeta.
  apply (missing_input_aborts (World "/home/user/nerdle" false None None)).
  left. reflexivity.
Defined.

Lemma batched_is_pointwise_witness :
  let guess := [49; 43; 50; 43; 51; 61; 48; 54] in
  let s := [57; 45; 56; 45; 49; 61; 48; 48] in
  let A := [s; guess] in
  let B := [guess; [49; 43; 50; 43; 52; 61; 48; 55]; s] in
  A !! 0%nat = B !! 2%nat
  ∧ compute_feedback guess A !! 0%nat = compute_feedback guess B !! 2%nat.
Proof.
  cbv zeta. split; [reflexivity|].
  apply (proj2 (batched_is_pointwise
                  [49; 43; 50; 43; 51; 61; 48; 54]
                  [[57; 45; 56; 45; 49; 61; 48; 48];
                   [49; 43; 50; 43; 51; 61; 48; 54]]
                  [[49; 43; 50; 43; 51; 61; 48; 54];
                   [49; 43; 50; 43; 52; 61; 48; 55];
                   [57; 45; 56; 45; 49; 61; 48; 48]]) 0%nat 2%nat).
  reflexivity.
Defined.

Lemma load_solutions_strips_witness :
  let before := [[49; 43; 50; 43; 51; 61; 48; 54; 10]] in
  let after := [[57; 45; 56; 45; 49; 61; 48; 48]] in
  let s := [49; 43; 50; 43; 52; 61; 48; 55] in
  load_solutions (Some (before ++ [32; 9; 10] :: after))
  = load_solutions (Some (before ++ after))
  ∧ load_solutions (Some (before ++ ([32; 32] ++ s ++ [32; 10]) :: after))
    = load_solutions (Some (before ++ s :: after))
  ∧ load_solutions (Some [[32; 49; 43; 50; 61; 51; 32; 10]])
    = inl (AssertionError [49; 43; 50; 61; 51] 5)
  ∧ load_solutions (Some [[32; 9; 10]]) = inr [].
Proof.
  cbv zeta.
  apply (load_solutions_strips
           [[49; 43; 50; 43; 51; 61; 48; 54; 10]]
           [[57; 45; 56; 45; 49; 61; 48; 48]]
           [32; 9; 10] [32; 32] [32; 10]
           [49; 43; 50; 43; 52; 61; 48; 55]);
    repeat constructor.
Defined.

(** * Further properties of the feedback engine *)

Lemma feedback_marks_lookup guess all_secrets i secret :
  all_secrets !! i = Some secret →
  feedback_marks guess all_secrets !! i = Some (marks_pair guess secret).
Proof.
  intros H. by rewrite feedback_marks_rows, list_lookup_fmap, H.
Qed.

Lemma mark_range guess secret p :
  mark guess secret p = 0 ∨ mark guess secret p = 1 ∨ mark guess secret p = 2.
Proof.
  destruct (mark_cases guess secret p) as [[-> _]|[[-> _]|[-> _]]]; tauto.
Qed.

Lemma marks_pair_closed guess secret :
  length guess = 8%nat → length secret = 8%nat →
  marks_pair guess secret = map (mark guess secret) (seq 0 8).
Proof.
  intros Hg Hs. apply list_eq. intros p.
  destruct (decide (p < 8)%nat) as [Hp|Hp].
  - rewrite marks_pair_lookup by lia.
    by rewrite list_lookup_fmap, lookup_seq_lt.
  - rewrite !lookup_ge_None_2; [done|by rewrite length_map, length_seq; lia|].
    rewrite marks_pair_length. lia.
Qed.


(** X2.  The hash loses nothing: for an 8-character guess and secret, the
    row of [result] has eight symbols, each 0, 1 or 2, and reading the hash
    digit by digit in base 3 gives that row back.  So two secrets share a hash
    exactly when they share the whole pattern. *)
Theorem pattern_round_trip (guess : list Z) (all_secrets : list (list Z))
    (i : nat) (secret : list Z) :
  length guess = 8%nat → length secret = 8%nat →
  all_secrets !! i = Some secret →
  ∃ row h,
    feedback_marks guess all_secrets !! i = Some row
    ∧ compute_feedback guess all_secrets !! i = Some h
    ∧ length row = 8%nat
    ∧ Forall (λ x, x = 0 ∨ x = 1 ∨ x = 2) row
    ∧ map (symbol_at h) (seq 0 8) = row.
Proof.
  intros Hg Hs Hi.
  exists (marks_pair guess secret), (feedback_pair guess secret).
  split; [by apply feedback_marks_lookup|].
  split; [by apply compute_feedback_lookup|].
  split; [rewrite marks_pair_length; lia|].
  rewrite (marks_pair_closed guess secret Hg Hs). split.
  - apply Forall_fmap, Forall_forall. intros p _. apply mark_range.
  - apply map_ext_in. intros p Hp%list_elem_of_In%elem_of_seq.
    apply feedback_pair_symbol; [done..|lia].
Qed.

(** X3.  A position reads match exactly when the guess and the secret hold
    the same character there: the presence pass never overwrites a match and
    never produces one. *)
Theorem match_iff_same_character (guess : list Z)
    (all_secrets : list (list Z)) (i : nat) (secret : list Z) (h : Z)
    (p : nat) :
  length guess = 8%nat → length secret = 8%nat →
  all_secrets !! i = Some secret →
  compute_feedback guess all_secrets !! i = Some h →
  (p < 8)%nat →
  symbol_at h p = 2 ↔ guess !! p = secret !! p.
Proof.
  intros Hg Hs Hi Hh Hp.
  rewrite (compute_feedback_lookup _ _ _ _ Hi) in Hh. injection Hh as <-.
  rewrite feedback_pair_symbol by done.
  destruct (lookup_lt_is_Some_2 guess p) as [c Hc]; [lia|].
  destruct (lookup_lt_is_Some_2 secret p) as [d Hd]; [lia|].
  pose proof (is_green_lookup _ _ _ _ _ Hc Hd) as Hgr.
  rewrite Hc, Hd.
  destruct (mark_cases guess secret p) as [[-> Hm]|[[-> [Hm _]]|[-> [Hm _]]]];
    rewrite Hm in Hgr; symmetry in Hgr.
  - apply Z.eqb_eq in Hgr as ->. done.
  - apply Z.eqb_neq in Hgr. split; [lia|congruence].
  - apply Z.eqb_neq in Hgr. split; [lia|congruence].
Qed.

Lemma sum_bool_cons (b : bool) (l : list bool) :
  sum_bool (b :: l) = (if b then 1 else 0) + sum_bool l.
Proof.
  unfold sum_bool. rewrite filter_cons.
  destruct b; case_decide; cbn [length]; done || lia.
Qed.

Lemma sum_bool_nonneg l : 0 ≤ sum_bool l.
Proof. unfold sum_bool. lia. Qed.

Lemma sum_bool_pos (l : list bool) :
  0 < sum_bool l → ∃ q, l !! q = Some true.
Proof.
  induction l as [|b l IH]; [by cbn|].
  rewrite sum_bool_cons. destruct b.
  - intros _. by exists 0%nat.
  - intros [q Hq]%IH. by exists (S q).
Qed.

Lemma sum_bool_andb_lt (b : list bool) : ∀ a : list bool,
  sum_bool (zip_with andb a b) < sum_bool b →
  ∃ q, b !! q = Some true ∧ a !! q ≠ Some true.
Proof.
  induction b as [|y b IH]; intros [|x a]; cbn [zip_with].
  - by cbn.
  - by cbn.
  - intros [q Hq]%sum_bool_pos. by exists q.
  - rewrite !sum_bool_cons. destruct x, y; cbn [andb]; intros Hlt.
    + destruct (IH a) as (q & ? & ?); [lia|]. by exists (S q).
    + destruct (IH a) as (q & ? & ?); [lia|]. by exists (S q).
    + by exists 0%nat.
    + destruct (IH a) as (q & ? & ?); [lia|]. by exists (S q).
Qed.

Lemma occurrences_pos c a p : a !! p = Some c → (0 < occurrences c a)%nat.
Proof.
  intros H. unfold occurrences.
  assert (c ∈ filter (λ x, x = c) a) as Hin.
  { apply list_elem_of_filter. split; [done|by eapply list_elem_of_lookup_2]. }
  destruct (filter _ a); [by apply elem_of_nil in Hin|cbn; lia].
Qed.

(** X4.  A position reads present-elsewhere only when the secret holds the
    guessed character at some other position that is not itself a match; and
    a guessed character that the secret does not contain always reads
    absent. *)
Theorem present_means_elsewhere (guess : list Z)
    (all_secrets : list (list Z)) (i : nat) (secret : list Z) (h : Z)
    (p : nat) (c : Z) :
  length guess = 8%nat → length secret = 8%nat →
  all_secrets !! i = Some secret →
  compute_feedback guess all_secrets !! i = Some h →
  guess !! p = Some c →
  (symbol_at h p = 1 →
   secret !! p ≠ Some c
   ∧ ∃ q, q ≠ p ∧ secret !! q = Some c ∧ guess !! q ≠ Some c)
  ∧ (occurrences c secret = 0%nat → symbol_at h p = 0).
Proof.
  intros Hg Hs Hi Hh Hc.
  rewrite (compute_feedback_lookup _ _ _ _ Hi) in Hh. injection Hh as <-.
  assert (p < 8)%nat as Hp by (apply lookup_lt_Some in Hc; lia).
  rewrite feedback_pair_symbol by done.
  destruct (lookup_lt_is_Some_2 secret p) as [d Hd]; [lia|].
  pose proof (is_green_lookup _ _ _ _ _ Hc Hd) as Hgr.
  pose proof (mark_cases guess secret p) as Hm.
  rewrite Hc in Hm. cbn [default] in Hm. unfold id in Hm. split.
  - intros H1. destruct Hm as [[? _]|[[_ [Hng Hin]]|[? _]]]; [lia| |lia].
    rewrite Hng in Hgr. symmetry in Hgr. apply Z.eqb_neq in Hgr.
    assert (secret !! p ≠ Some c) as Hsp by congruence.
    split; [done|].
    assert (0 < unconsumed_of (zip_with Z.eqb guess secret) secret c) as Hpos.
    { destruct (decide
        (0 < unconsumed_of (zip_with Z.eqb guess secret) secret c))
        as [?|Hle]; [done|].
      unfold credited in Hin.
      replace (Z.to_nat (unconsumed_of (zip_with Z.eqb guess secret) secret c))
        with 0%nat in Hin by lia.
      rewrite take_0 in Hin. by apply elem_of_nil in Hin. }
    unfold unconsumed_of in Hpos.
    destruct (sum_bool_andb_lt (map (λ x, x =? c) secret)
                (zip_with Z.eqb guess secret)) as (q & Hq & Hnq); [lia|].
    rewrite list_lookup_fmap in Hq.
    destruct (secret !! q) as [e|] eqn:He; [|done].
    injection Hq as Hq. apply Z.eqb_eq in Hq as ->.
    exists q. split; [congruence|]. split; [done|].
    intros Hgq. apply Hnq. rewrite lookup_zip_with, Hgq, He. cbn.
    by rewrite Z.eqb_refl.
  - intros Hnone.
    destruct Hm as [[_ Hgreen]|[[_ [_ Hin]]|[? _]]]; [| |done].
    + rewrite Hgreen in Hgr. symmetry in Hgr. apply Z.eqb_eq in Hgr as ->.
      apply occurrences_pos in Hd. lia.
    + rewrite credited_take in Hin by lia. unfold unconsumed in Hin.
      rewrite Hnone in Hin. by apply elem_of_nil in Hin.
Qed.

(** X5.  For every character [c], the positions of [c] in the guess that
    read match or present-elsewhere number exactly the smaller of the
    occurrences of [c] in the guess and in the secret. *)
Theorem credits_exact (guess : list Z) (all_secrets : list (list Z))
    (i : nat) (secret : list Z) (h c : Z) :
  length guess = 8%nat → length secret = 8%nat →
  all_secrets !! i = Some secret →
  compute_feedback guess all_secrets !! i = Some h →
  length (marked (λ x, negb (x =? 0)) guess h c)
  = (occurrences c guess `min` occurrences c secret)%nat.
Proof.
  intros Hg Hs Hi Hh.
  rewrite (compute_feedback_lookup _ _ _ _ Hi) in Hh. injection Hh as <-.
  rewrite marked_nonabsent by done.
  rewrite credited_take, length_take by lia.
  pose proof (positions_split guess secret c) as Hsplit.
  pose proof (match_positions_le guess secret c) as Hle.
  unfold unconsumed. lia.
Qed.

(** X6.  When the guess and the secret are made of the same characters with
    the same multiplicities, no position reads absent. *)
Theorem rearrangement_has_no_absent (guess : list Z)
    (all_secrets : list (list Z)) (i : nat) (secret : list Z) (h : Z)
    (p : nat) :
  length guess = 8%nat → length secret = 8%nat →
  all_secrets !! i = Some secret →
  compute_feedback guess all_secrets !! i = Some h →
  (∀ c, occurrences c guess = occurrences c secret) →
  (p < 8)%nat →
  symbol_at h p = 1 ∨ symbol_at h p = 2.
Proof.
  intros Hg Hs Hi Hh Hsame Hp.
  rewrite (compute_feedback_lookup _ _ _ _ Hi) in Hh. injection Hh as <-.
  rewrite feedback_pair_symbol by done.
  destruct (lookup_lt_is_Some_2 guess p) as [c Hc]; [lia|].
  pose proof (mark_cases guess secret p) as Hm.
  rewrite Hc in Hm. cbn [default] in Hm. unfold id in Hm.
  destruct Hm as [[-> _]|[[-> _]|[_ [Hng Hnin]]]]; [by right|by left|].
  exfalso. apply Hnin. rewrite credited_take by lia.
  rewrite take_ge; [by apply elem_of_nonmatch|].
  pose proof (positions_split guess secret c) as Hsplit.
  pose proof (match_positions_le guess secret c) as Hle.
  specialize (Hsame c). unfold unconsumed. lia.
Qed.

(** * Further properties of the counts *)

Lemma count_patterns_le_6560 encoded g : count_patterns encoded g ≤ 6560.
Proof.
  rewrite count_patterns_size.
  set (D := _ ∖ _ : gset Z).
  assert (D ⊆ list_to_set (seqZ 0 6560)) as Hsub.
  { intros h [Hh Hne]%elem_of_difference.
    apply elem_of_list_to_set, elem_of_compute_feedback in Hh as (s & _ & ->).
    apply elem_of_list_to_set, elem_of_seqZ.
    pose proof (feedback_pair_bounds g s).
    assert (feedback_pair g s ≠ 6560); [|lia].
    intros Heq. apply Hne, elem_of_singleton. by rewrite Heq. }
  apply subseteq_size in Hsub.
  rewrite size_list_to_set, length_seqZ in Hsub by apply NoDup_seqZ. lia.
Qed.

Lemma count_patterns_le_length encoded g :
  count_patterns encoded g ≤ Z.of_nat (length encoded).
Proof.
  unfold count_patterns.
  pose proof (np_unique_length (compute_feedback g encoded)) as Hle.
  assert (length (compute_feedback g encoded) = length encoded) as Hn
    by (by rewrite compute_feedback_rows, length_map).
  case_bool_decide; lia.
Qed.

(** X7.  Whatever the candidate list, a guess's count is at least 0, at most
    6560 (the number of non-winning patterns) and at most [N]; the value kept
    in the int32 array is that count, unwrapped. *)
Theorem count_never_wraps (encoded : list (list Z)) (gi : nat) (g : list Z) :
  encoded !! gi = Some g →
  num_patterns_of encoded !! gi = Some (count_patterns encoded g)
  ∧ 0 ≤ count_patterns encoded g ≤ 6560
  ∧ count_patterns encoded g ≤ Z.of_nat (length encoded).
Proof.
  intros Hg. split; [|split; [split|]].
  - by rewrite (num_patterns_lookup _ _ _ Hg), count_patterns_int32.
  - rewrite count_patterns_size. lia.
  - apply count_patterns_le_6560.
  - apply count_patterns_le_length.
Qed.

(** X8.  A guess's count depends only on which candidates occur in the list:
    adding candidates never lowers it, and repeating or reordering candidates
    does not change it. *)
Theorem count_monotone (A B : list (list Z)) (g : list Z) :
  (∀ s, s ∈ A → s ∈ B) →
  count_patterns A g ≤ count_patterns B g
  ∧ ((∀ s, s ∈ B → s ∈ A) → count_patterns A g = count_patterns B g).
Proof.
  intros Hsub.
  assert (∀ A B : list (list Z), (∀ s, s ∈ A → s ∈ B) →
          count_patterns A g ≤ count_patterns B g) as Hmono.
  { clear. intros A B Hsub. rewrite !count_patterns_size.
    apply inj_le, subseteq_size.
    intros h [Hh Hne]%elem_of_difference.
    apply elem_of_list_to_set, elem_of_compute_feedback in Hh as (s & Hs & ->).
    apply elem_of_difference. split; [|done].
    apply elem_of_list_to_set, elem_of_compute_feedback.
    exists s. split; [by apply Hsub|done]. }
  split; [by apply Hmono|].
  intros Hsup. apply Z.le_antisymm; by apply Hmono.
Qed.

(** ** The closed form of the docstring *)

Lemma Qsum_ext {A} (F G : A → Q) (l : list A) :
  (∀ x, x ∈ l → (F x == G x)%Q) → (Qsum (map F l) == Qsum (map G l))%Q.
Proof.
  induction l as [|x l IH]; intros H; [reflexivity|].
  cbn [map Qsum foldr]. fold (Qsum (map F l)) (Qsum (map G l)).
  rewrite (H x) by by left. rewrite IH; [reflexivity|].
  intros y Hy. apply H. by right.
Qed.

Lemma Qsum_const {A} (q : Q) (l : list A) :
  (Qsum (map (λ _, q) l) == inject_Z (Z.of_nat (length l)) * q)%Q.
Proof.
  induction l as [|x l IH].
  - cbn. ring.
  - cbn [map Qsum foldr length]. fold (Qsum (map (λ _ : A, q) l)).
    rewrite IH, Nat2Z.inj_succ. unfold Z.succ. rewrite inject_Z_plus. ring.
Qed.

Lemma Qsum_filter_split {A} (F : A → Q) (P : A → Prop)
    `{!∀ x, Decision (P x)} (l : list A) :
  (Qsum (map F l)
   == Qsum (map F (filter P l)) + Qsum (map F (filter (λ x, ¬ P x) l)))%Q.
Proof.
  induction l as [|x l IH]; [cbn; ring|].
  rewrite !filter_cons. cbn [map Qsum foldr]. fold (Qsum (map F l)).
  rewrite IH. destruct (decide (P x)) as [HP|HP].
  - rewrite decide_False by tauto. cbn [map Qsum foldr].
    fold (Qsum (map F (filter P l))). ring.
  - rewrite decide_True by done. cbn [map Qsum foldr].
    fold (Qsum (map F (filter (λ x, ¬ P x) l))). ring.
Qed.

Section Grouping.
Context {A : Type} (f : A → Z).

Local Abbreviation cnt l v := (length (filter (λ y, f y = v) l)).

Lemma grouping_sum n : ∀ l : list A,
  (length l < n)%nat →
  (Qsum (map (λ x, 1 / inject_Z (Z.of_nat (cnt l (f x)))) l)
   == inject_Z (Z.of_nat (size (list_to_set (f <$> l) : gset Z))))%Q.
Proof.
  induction n as [|n IH]; intros l Hlen; [lia|].
  destruct l as [|x l0]; [reflexivity|].
  set (l := x :: l0) in *. set (v := f x).
  set (l1 := filter (λ y, f y = v) l).
  set (l2 := filter (λ y, ¬ f y = v) l).
  assert (x ∈ l1) as Hx1.
  { apply list_elem_of_filter. split; [done|by left]. }
  assert (0 < length l1)%nat as Hl1.
  { destruct l1; [by apply elem_of_nil in Hx1|cbn; lia]. }
  assert (length l2 < n)%nat as Hl2.
  { assert (length l2 < length l)%nat; [|lia].
    apply (length_filter_lt _ _ x); [by left|]. by intros []. }
  rewrite (Qsum_filter_split _ (λ y, f y = v) l). fold l1 l2.
  (* the bucket of [v] adds up to 1 *)
  rewrite (Qsum_ext _ (λ _, 1 / inject_Z (Z.of_nat (length l1)))%Q l1).
  2:{ intros y [Hy _]%list_elem_of_filter. by rewrite Hy. }
  rewrite Qsum_const.
  (* the other buckets are those of [l2] *)
  rewrite (Qsum_ext _ (λ y, 1 / inject_Z (Z.of_nat (cnt l2 (f y))))%Q l2).
  2:{ intros y [Hy _]%list_elem_of_filter.
      replace (cnt l2 (f y)) with (cnt l (f y)); [reflexivity|].
      unfold l2. rewrite list_filter_filter. f_equal.
      apply filter_ext_elem. intros z _. split; [|tauto].
      intros Hz. split; [done|congruence]. }
  rewrite (IH l2 Hl2).
  assert ((list_to_set (f <$> l) : gset Z)
          = {[v]} ∪ list_to_set (f <$> l2)) as ->.
  { apply set_eq. intros w.
    rewrite elem_of_union, elem_of_singleton, !elem_of_list_to_set,
      !list_elem_of_fmap. split.
    - intros (y & -> & Hy). destruct (decide (f y = v)) as [?|Hne];
        [by left|right]. exists y. split; [done|].
      by apply list_elem_of_filter.
    - intros [->|(y & -> & [_ Hy]%list_elem_of_filter)]; [|by exists y].
      exists x. split; [done|by left]. }
  rewrite size_union, size_singleton.
  2:{ apply disjoint_singleton_l.
      rewrite elem_of_list_to_set, list_elem_of_fmap.
      intros (y & Hy & [Hne _]%list_elem_of_filter). congruence. }
  rewrite Nat2Z.inj_add, inject_Z_plus.
  assert (inject_Z (Z.of_nat (length l1))
          * (1 / inject_Z (Z.of_nat (length l1))) == 1)%Q as ->.
  { field. intros H0.
    change (Z.of_nat (length l1) * 1 = 0 * 1) in H0. lia. }
  reflexivity.
Qed.
End Grouping.

Lemma bucket_size_filter encoded g P :
  bucket_size encoded g P
  = length (filter (λ s, feedback_pair g s = P) encoded).
Proof.
  unfold bucket_size. rewrite compute_feedback_rows.
  induction encoded as [|s encoded IH]; [done|].
  cbn [map]. rewrite !filter_cons.
  destruct (decide (feedback_pair g s = P)); cbn [length]; by rewrite IH.
Qed.

(** X9.  The identity of the module docstring holds for every list of
    8-character candidates: the sum over the secrets [S ≠ G] of
    [1 / K(feedback(G, S))], divided by [N], equals the number that [main]
    computes for [G], its count of distinct non-winning patterns divided by
    [N]. *)
Theorem solve_in_2_closed_form (encoded : list (list Z)) (g : list Z) :
  Forall (λ s, length s = 8%nat) encoded →
  length g = 8%nat →
  (solve_in_2 encoded g
   == true_divide (count_patterns encoded g) (length encoded))%Q.
Proof.
  intros Hshape Hg. unfold solve_in_2, true_divide.
  set (others := filter (λ s, s ≠ g) encoded).
  assert (∀ s, s ∈ encoded →
            s ≠ g ↔ feedback_pair g s ≠ ALL_GREEN_HASH) as Hne.
  { intros s Hs. rewrite feedback_pair_all_green; [split; congruence|done|].
    by eapply Forall_forall in Hshape. }
  rewrite (Qsum_ext _
    (λ s, 1 / inject_Z (Z.of_nat
            (length (filter (λ y, feedback_pair g y = feedback_pair g s)
                       others))))%Q others).
  2:{ intros s [Hsg Hs]%list_elem_of_filter.
      rewrite bucket_size_filter.
      replace (length (filter (λ y, feedback_pair g y = feedback_pair g s)
                         others))
        with (length (filter (λ y, feedback_pair g y = feedback_pair g s)
                        encoded)); [reflexivity|].
      unfold others. rewrite list_filter_filter. f_equal.
      apply filter_ext_elem. intros y Hy. split; [|tauto].
      intros Heq. split; [done|]. apply Hne; [done|]. rewrite Heq.
      by apply Hne. }
  rewrite (grouping_sum (feedback_pair g) (S (length others)) others)
    by lia.
  rewrite count_patterns_size.
  assert ((list_to_set (feedback_pair g <$> others) : gset Z)
          = list_to_set (compute_feedback g encoded) ∖ {[ALL_GREEN_HASH]})
    as ->.
  { apply set_eq. intros h.
    rewrite elem_of_difference, elem_of_singleton, !elem_of_list_to_set,
      list_elem_of_fmap, elem_of_compute_feedback. split.
    - intros (s & -> & [Hsg Hs]%list_elem_of_filter).
      split; [by exists s|by apply Hne].
    - intros [(s & Hs & ->) Hh]. exists s. split; [done|].
      apply list_elem_of_filter. split; [by apply Hne|done]. }
  unfold Qdiv. ring.
Qed.

(** * Further properties of [encode_solutions] *)

Lemma store_uint8_ok c : 0 ≤ c ≤ 255 → store_uint8 c = inr c.
Proof.
  intros H. unfold store_uint8.
  assert ((0 <=? c) && (c <=? 255) = true) as ->; [|done].
  apply andb_true_iff. split; apply Z.leb_le; lia.
Qed.

Lemma encode_cells_ok s : ∀ k row,
  length row = 8%nat → (k + length s ≤ 8)%nat →
  Forall (λ c, 0 ≤ c ≤ 255) s →
  fold_left encode_cell (imap (λ j c, ((k + j)%nat, c)) s) (inr row)
  = inr (take k row ++ s ++ drop (k + length s) row).
Proof.
  induction s as [|c s IH]; intros k row Hrow Hk Hs.
  - cbn [imap fold_left length app]. by rewrite Nat.add_0_r, take_drop.
  - apply Forall_cons in Hs as [Hc Hs]. cbn [length] in Hk.
    cbn [imap fold_left]. unfold encode_cell at 2. cbn [fst snd mbind result_bind].
    rewrite Nat.add_0_r, decide_False by lia.
    rewrite store_uint8_ok by done. cbn [mbind result_bind mret result_ret].
    rewrite (imap_ext _ (λ j c, ((S k + j)%nat, c)))
      by (intros; cbn; f_equal; lia).
    unfold mret, result_ret.
    rewrite IH by (rewrite ?length_insert; done || lia).
    f_equal. rewrite drop_insert_lt by lia.
    cbn [length]. replace (k + S (length s))%nat with (S k + length s)%nat by lia.
    rewrite (take_S_r (<[k:=c]> row) k c)
      by (apply list_lookup_insert_eq; lia).
    rewrite take_insert_ge by lia. by rewrite <- app_assoc.
Qed.

Lemma encode_cells_raised l e : fold_left encode_cell l (inl e) = inl e.
Proof. induction l as [|jc l IH]; [done|]. exact IH. Qed.

Lemma encode_cells_long s :
  (8 < length s)%nat → Forall (λ c, 0 ≤ c ≤ 255) s →
  fold_left encode_cell (imap pair s) (mret (zeros 8)) = inl IndexError.
Proof.
  intros Hlen Hs.
  rewrite <- (take_drop 8 s) in Hs |- *.
  apply Forall_app in Hs as [Hs8 _].
  assert (length (take 8 s) = 8%nat) as H8 by (rewrite length_take; lia).
  destruct (drop 8 s) as [|c rest] eqn:Hdrop.
  { apply (f_equal length) in Hdrop. rewrite length_drop in Hdrop.
    cbn in Hdrop. lia. }
  rewrite imap_app, fold_left_app.
  rewrite (imap_ext pair (λ j c, ((0 + j)%nat, c)) (take 8 s)) by done.
  change (mret (zeros 8)) with (inr (zeros 8) : result (list Z)).
  rewrite encode_cells_ok; [|done|lia|done].
  cbn [imap fold_left]. unfold encode_cell at 2.
  cbn [fst snd mbind result_bind]. rewrite decide_True by lia.
  apply encode_cells_raised.
Qed.

Lemma encode_row_padded s :
  (length s ≤ 8)%nat → Forall (λ c, 0 ≤ c ≤ 255) s →
  fold_left encode_cell (imap pair s) (mret (zeros 8))
  = inr (s ++ replicate (8 - length s) 0).
Proof.
  intros Hlen Hs.
  rewrite (imap_ext pair (λ j c, ((0 + j)%nat, c)) s) by done.
  change (mret (zeros 8)) with (inr (zeros 8) : result (list Z)).
  rewrite encode_cells_ok; [|done|lia|done].
  cbn [take app Nat.add]. unfold zeros. by rewrite drop_replicate.
Qed.

Lemma encode_solutions_padded solutions :
  Forall (λ s, (length s ≤ 8)%nat) solutions →
  Forall (Forall (λ c, 0 ≤ c ≤ 255)) solutions →
  encode_solutions solutions
  = inr (map (λ s, s ++ replicate (8 - length s) 0) solutions).
Proof.
  intros Hlen Hrange. unfold encode_solutions.
  induction solutions as [|s rest IH]; [done|].
  apply Forall_cons in Hlen as [Hs Hlen].
  apply Forall_cons in Hrange as [Hr Hrange].
  cbn [mapM map]. rewrite encode_row_padded by done.
  cbn [mbind result_bind]. rewrite IH by done. done.
Qed.

Lemma encode_solutions_ok solutions :
  Forall (λ s, length s = 8%nat) solutions →
  Forall (Forall (λ c, 0 ≤ c ≤ 255)) solutions →
  encode_solutions solutions = inr solutions.
Proof.
  intros H8 Hrange. rewrite encode_solutions_padded.
  - f_equal. rewrite <- (map_id solutions) at 2. apply map_ext_in.
    intros s Hs%list_elem_of_In. eapply Forall_forall in H8; [|done].
    rewrite H8. cbn [Nat.sub replicate]. apply app_nil_r.
  - eapply Forall_impl; [exact H8|]. cbn. lia.
  - done.
Qed.

(** X10.  [encode_solutions] on strings of at most 8 characters, all with
    codes from 0 to 255, returns one row per string holding its character
    codes in order, padded with zeros to 8 columns; for 8-character strings
    the rows are the strings themselves. *)
Theorem encode_solutions_rows (solutions : list (list Z)) :
  Forall (λ s, (length s ≤ 8)%nat) solutions →
  Forall (Forall (λ c, 0 ≤ c ≤ 255)) solutions →
  encode_solutions solutions
  = inr (map (λ s, s ++ replicate (8 - length s) 0) solutions)
  ∧ (Forall (λ s, length s = 8%nat) solutions →
     encode_solutions solutions = inr solutions).
Proof.
  intros Hlen Hrange. split; [by apply encode_solutions_padded|].
  intros H8. by apply encode_solutions_ok.
Qed.

(** X11.  [encode_solutions] raises [IndexError] on a string of more than 8
    characters (all codes from 0 to 255) when the strings before it have at
    most 8: the write to column 8 is out of bounds. *)
Theorem encode_solutions_too_long (before after : list (list Z))
    (s : list Z) :
  Forall (λ s, (length s ≤ 8)%nat) before →
  Forall (Forall (λ c, 0 ≤ c ≤ 255)) before →
  (8 < length s)%nat → Forall (λ c, 0 ≤ c ≤ 255) s →
  encode_solutions (before ++ s :: after) = inl IndexError.
Proof.
  intros Hlen Hrange Hs Hsr. unfold encode_solutions.
  induction before as [|b before IH]; cbn [app mapM].
  - by rewrite encode_cells_long.
  - apply Forall_cons in Hlen as [Hb Hlen].
    apply Forall_cons in Hrange as [Hbr Hrange].
    rewrite encode_row_padded by done. cbn [mbind result_bind].
    by rewrite IH.
Qed.

(** * Further properties of the run *)

Lemma ranking_length p_solve2 : length (ranking p_solve2) = length p_solve2.
Proof.
  rewrite (Permutation_length (ranking_Permutation p_solve2)).
  apply length_seq.
Qed.

Lemma elem_of_ranking p_solve2 idx :
  idx ∈ ranking p_solve2 ↔ (idx < length p_solve2)%nat.
Proof.
  rewrite (ranking_Permutation p_solve2), elem_of_seq. lia.
Qed.

Lemma p_solve2_length num_patterns N :
  length (p_solve2_of num_patterns N) = length num_patterns.
Proof. unfold p_solve2_of. apply length_map. Qed.

Lemma csv_rows_length solutions num_patterns p_solve2 order :
  length (csv_rows solutions num_patterns p_solve2 order) = length order.
Proof. unfold csv_rows. apply length_imap. Qed.




Lemma load_solutions_ok lines :
  Forall (λ s, length s = 8%nat) (filter (λ s, s ≠ []) (map strip lines)) →
  load_solutions (Some lines) = inr (filter (λ s, s ≠ []) (map strip lines)).
Proof.
  intros Hall.
  destruct (load_solutions_spec lines)
    as [[_ ->]|(pre & s & post & Hsplit & _ & Hs & _)]; [done|].
  cbv zeta in Hsplit. rewrite Hsplit in Hall.
  apply Forall_app in Hall as [_ [Hs8 _]%Forall_cons]. done.
Qed.


(** X13.  Every row of the table a completed run saves agrees with the
    analysis of its own guess: the guess is one of the loaded entries, its
    count is the number of distinct non-winning patterns of that guess, its
    probability is the count divided by [N], and its rank is its position
    in the table. *)
Theorem csv_row_consistent (w w' : world) (rows : list csv_row) (i : nat)
    (row : csv_row) :
  main w = (inr (), w') →
  csv_file w' = Some rows →
  rows !! i = Some row →
  ∃ encoded,
    load_solutions (data_file w) = inr encoded
    ∧ length rows = length encoded
    ∧ row_guess row ∈ encoded
    ∧ row_rank row = S i
    ∧ row_patterns row = count_patterns encoded (row_guess row)
    ∧ row_p row = true_divide (row_patterns row) (length encoded).
Proof.
  intros Hmain Hcsv Hrow.
  apply main_candidates in Hmain as (encoded & Hload & _ & _ & Hrows).
  rewrite Hrows in Hcsv. injection Hcsv as <-.
  exists encoded. split; [done|].
  split.
  { by rewrite csv_rows_length, ranking_length, p_solve2_length,
      num_patterns_length. }
  apply csv_rows_lookup in Hrow as (idx & Hidx & Hrank & Hguess & Hpat & Hp).
  assert (idx < length encoded)%nat as Hlt.
  { apply list_elem_of_lookup_2, elem_of_ranking in Hidx.
    by rewrite p_solve2_length, num_patterns_length in Hidx. }
  destruct (lookup_lt_is_Some_2 encoded idx Hlt) as [g Hg].
  pose proof (num_patterns_lookup _ _ _ Hg) as Hnum.
  rewrite count_patterns_int32 in Hnum.
  rewrite Hg in Hguess. cbn in Hguess.
  rewrite Hnum in Hpat. cbn in Hpat.
  rewrite (p_solve2_lookup _ _ _ _ Hnum) in Hp. cbn in Hp.
  rewrite Hguess, Hpat, Hp.
  repeat split; [|done]. by eapply list_elem_of_lookup_2.
Qed.

Lemma blank_lines_no_entries lines :
  Forall (Forall (λ c, is_space c = true)) lines →
  filter (λ s, s ≠ []) (map strip lines) = [].
Proof.
  induction 1 as [|l lines Hl _ IH]; [done|].
  cbn [map]. rewrite filter_cons_False; [done|].
  rewrite strip_blank by done. by intros ?.
Qed.

(** X14.  When the data file exists but holds no entry (it is empty, or all
    its lines are blank), the run passes the loader and the loop and then
    stops with [IndexError] at [order[0]]; no table is written. *)
Theorem empty_input_index_error (w : world) (lines : list (list Z)) :
  data_exists w = true →
  data_file w = Some lines →
  Forall (Forall (λ c, is_space c = true)) lines →
  load_solutions (data_file w) = inr [] ∧ main w = (inl IndexError, w).
Proof.
  intros Hex Hfile Hblank.
  assert (load_solutions (data_file w) = inr []) as Hload.
  { rewrite Hfile. unfold load_solutions.
    by rewrite blank_lines_no_entries. }
  split; [done|]. unfold main. by rewrite Hex, Hload.
Qed.


(** * The printed summary *)

Lemma true_divide_le_inv k1 k2 N :
  (0 < N)%nat → (true_divide k1 N <= true_divide k2 N)%Q → k1 ≤ k2.
Proof.
  intros HN. unfold true_divide.
  assert (0 < Z.of_nat N) as Hz by lia.
  destruct (Z.of_nat N) as [|n|n]; [lia| |lia].
  unfold Qdiv, Qmult, Qinv, Qle, inject_Z. cbn.
  rewrite !Z.mul_1_r. intros H.
  by apply Z.mul_le_mono_pos_r in H.
Qed.

Lemma summarize_inv solutions num_patterns p_solve2 order s :
  summarize solutions num_patterns p_solve2 order = inr s →
  order !! 0%nat = Some (best_idx s)
  ∧ order !! (length order - 1)%nat = Some (worst_idx s)
  ∧ top20 s = csv_rows solutions num_patterns p_solve2 (take 20 order)
  ∧ worst5 s = csv_rows solutions num_patterns p_solve2
                 (reverse (drop (length order - 5) order)).
Proof.
  unfold summarize, raise.
  destruct (order !! 0%nat) as [best|] eqn:Hbest; [|done].
  destruct (last order) as [worst|] eqn:Hworst; [|done].
  intros [= <-]. cbn. rewrite last_lookup in Hworst.
  by replace (length order - 1)%nat with (pred (length order)) by lia.
Qed.

(** X16.  When the summary is printed for a non-empty list, the guess shown
    as best has the largest count of all guesses and the one shown as worst
    the smallest. *)
Theorem summary_extremes (solutions : list (list Z)) (num_patterns : list Z)
    (N : nat) (s : summary) (gi : nat) (k : Z) :
  (0 < N)%nat →
  let p_solve2 := p_solve2_of num_patterns N in
  summarize solutions num_patterns p_solve2 (ranking p_solve2) = inr s →
  num_patterns !! gi = Some k →
  ∃ kb kw,
    num_patterns !! best_idx s = Some kb
    ∧ num_patterns !! worst_idx s = Some kw
    ∧ kw ≤ k ≤ kb.
Proof.
  intros HN p Hsum Hk.
  apply summarize_inv in Hsum as (Hbest & Hworst & _ & _).
  assert (∀ idx, idx ∈ ranking p → ∃ v, num_patterns !! idx = Some v) as Hin.
  { intros idx Hidx%elem_of_ranking. unfold p in Hidx.
    rewrite p_solve2_length in Hidx. by apply lookup_lt_is_Some_2. }
  destruct (Hin (best_idx s)) as [kb Hkb];
    [by eapply list_elem_of_lookup_2|].
  destruct (Hin (worst_idx s)) as [kw Hkw];
    [by eapply list_elem_of_lookup_2|].
  assert (gi ∈ ranking p) as Hgi.
  { apply elem_of_ranking. unfold p. rewrite p_solve2_length.
    by apply lookup_lt_Some in Hk. }
  apply list_elem_of_lookup_1 in Hgi as [j Hj].
  pose proof (lookup_lt_Some _ _ _ Hj) as Hjlt.
  assert (0 ≤ j)%nat as H0j by lia.
  assert (j ≤ length (ranking p) - 1)%nat as Hjn by lia.
  pose proof (ranking_descending p 0 j _ _ H0j Hbest Hj) as Hle1.
  pose proof (ranking_descending p j _ _ _ Hjn Hj Hworst) as Hle2.
  unfold p in Hle1, Hle2.
  rewrite (p_solve2_lookup _ _ _ _ Hk), (p_solve2_lookup _ _ _ _ Hkb)
    in Hle1.
  rewrite (p_solve2_lookup _ _ _ _ Hk), (p_solve2_lookup _ _ _ _ Hkw)
    in Hle2.
  cbn in Hle1, Hle2. apply true_divide_le_inv in Hle1, Hle2; [|done..].
  exists kb, kw. repeat split; done.
Qed.

Lemma csv_rows_take solutions num_patterns p_solve2 order n :
  csv_rows solutions num_patterns p_solve2 (take n order)
  = take n (csv_rows solutions num_patterns p_solve2 order).
Proof.
  apply list_eq. intros i. unfold csv_rows.
  destruct (decide (i < n)%nat) as [Hi|Hi].
  - by rewrite lookup_take_lt, !list_lookup_imap, lookup_take_lt.
  - rewrite (lookup_ge_None_2 (take _ _)), lookup_ge_None_2; [done|..];
      rewrite ?length_imap, length_take; lia.
Qed.

(** X17.  The printed tables agree with the saved one: the top-20 table is
    the first 20 rows of the CSV table (all of them when there are fewer),
    and the list of the worst has [min(5, N)] lines, line [i] renumbering as
    [i + 1] the CSV row that is [i]-th from the end. *)
Theorem summary_tables (solutions : list (list Z)) (num_patterns : list Z)
    (p_solve2 : list Q) (order : list nat) (s : summary) :
  summarize solutions num_patterns p_solve2 order = inr s →
  let table := csv_rows solutions num_patterns p_solve2 order in
  top20 s = take 20 table
  ∧ length (worst5 s) = (5 `min` length table)%nat
  ∧ ∀ i row, worst5 s !! i = Some row →
      ∃ row', table !! (length table - 1 - i)%nat = Some row'
              ∧ row_rank row = S i
              ∧ row_guess row = row_guess row'
              ∧ row_patterns row = row_patterns row'
              ∧ row_p row = row_p row'.
Proof.
  intros Hsum table.
  apply summarize_inv in Hsum as (_ & _ & Htop & Hworst).
  split; [by rewrite Htop, csv_rows_take|].
  assert (length table = length order) as Hlen by apply csv_rows_length.
  split.
  { rewrite Hworst, csv_rows_length, length_reverse, length_drop. lia. }
  intros i row Hrow. rewrite Hworst in Hrow.
  apply csv_rows_lookup in Hrow as (idx & Hidx & Hrank & Hguess & Hpat & Hp).
  apply reverse_lookup_Some in Hidx as [Hidx Hi].
  rewrite length_drop in Hidx, Hi. rewrite lookup_drop in Hidx.
  replace (length order - 5 + (length order - (length order - 5) - S i))%nat
    with (length order - 1 - i)%nat in Hidx by lia.
  rewrite Hlen. unfold table, csv_rows. rewrite list_lookup_imap, Hidx. cbn.
  eexists. split; [done|]. by cbn.
Qed.

(** * Further properties of the loader *)

(** A string that does not begin with whitespace. *)
Lemma lstrip_head s :
  match lstrip s with [] => True | c :: _ => is_space c = false end.
Proof.
  induction s as [|c s IH]; [done|].
  cbn [lstrip]. by destruct (is_space c) eqn:Hc.
Qed.

Lemma lstrip_fixed s :
  match s with [] => True | c :: _ => is_space c = false end →
  lstrip s = s.
Proof. destruct s as [|c s]; [done|]. cbn [lstrip]. by intros ->. Qed.

Lemma lstrip_idemp s : lstrip (lstrip s) = lstrip s.
Proof. apply lstrip_fixed, lstrip_head. Qed.

Lemma rstrip_snoc s c :
  rstrip (s ++ [c]) = if is_space c then rstrip s else s ++ [c].
Proof.
  unfold rstrip. rewrite reverse_app. cbn [reverse app lstrip].
  change (reverse [c]) with [c]. cbn [app lstrip].
  destruct (is_space c); [done|].
  by rewrite <- (reverse_involutive (s ++ [c])), reverse_app.
Qed.

Lemma rstrip_idemp s : rstrip (rstrip s) = rstrip s.
Proof.
  unfold rstrip. by rewrite reverse_involutive, lstrip_idemp.
Qed.

Lemma rstrip_keeps_head s :
  match s with [] => True | c :: _ => is_space c = false end →
  match rstrip s with [] => True | c :: _ => is_space c = false end.
Proof.
  induction s as [|c s IH] using rev_ind; [done|].
  intros Hhead. rewrite rstrip_snoc.
  destruct (is_space c) eqn:Hc; [|done].
  apply IH. destruct s as [|d s]; [done|]. exact Hhead.
Qed.

Lemma strip_idemp s : strip (strip s) = strip s.
Proof.
  unfold strip.
  rewrite (lstrip_fixed (rstrip (lstrip s)))
    by apply rstrip_keeps_head, lstrip_head.
  apply rstrip_idemp.
Qed.

Lemma entries_stripped lines :
  Forall (λ s, strip s = s ∧ s ≠ [])
    (filter (λ s, s ≠ []) (map strip lines)).
Proof.
  apply Forall_forall.
  intros s [Hne (l & -> & _)%list_elem_of_fmap]%list_elem_of_filter.
  split; [apply strip_idemp|done].
Qed.

Lemma filter_all {A} (P : A → Prop) `{!∀ x, Decision (P x)} (l : list A) :
  Forall P l → filter P l = l.
Proof.
  induction 1 as [|x l Hx _ IH]; [done|].
  by rewrite filter_cons_True, IH.
Qed.

(** X18.  What [load_solutions] returns is clean: every entry has 8
    characters and no whitespace at either end, there are no more entries
    than lines, and loading the returned list again returns it unchanged. *)
Theorem load_solutions_idempotent (lines solutions : list (list Z)) :
  load_solutions (Some lines) = inr solutions →
  Forall (λ s, length s = 8%nat ∧ strip s = s) solutions
  ∧ (length solutions ≤ length lines)%nat
  ∧ load_solutions (Some solutions) = inr solutions.
Proof.
  intros Hload.
  destruct (load_solutions_spec lines)
    as [[H8 Hok]|(? & ? & ? & _ & _ & _ & Herr)]; [|congruence].
  rewrite Hok in Hload. injection Hload as <-.
  pose proof (entries_stripped lines) as Hclean.
  set (entries := filter _ (map strip lines)) in *.
  assert (map strip entries = entries) as Hmap.
  { rewrite <- (map_id entries) at 2. apply map_ext_in.
    intros s Hs%list_elem_of_In. eapply Forall_forall in Hclean; [|done].
    tauto. }
  split; [|split].
  - apply Forall_forall. intros s Hs.
    eapply Forall_forall in H8; [|done].
    eapply Forall_forall in Hclean; [|done]. tauto.
  - unfold entries. etrans; [apply length_filter|]. by rewrite length_map.
  - assert (filter (λ s, s ≠ []) (map strip entries) = entries) as Hsame.
    { rewrite Hmap. apply filter_all.
      eapply Forall_impl; [exact Hclean|]. cbn. tauto. }
    rewrite <- Hsame at 2. apply load_solutions_ok. by rewrite Hsame.
Qed.

Lemma assert_lengths_first pre s post :
  Forall (λ s, length s = 8%nat) pre → length s ≠ 8%nat →
  assert_lengths (pre ++ s :: post) = inl (AssertionError s (length s)).
Proof.
  intros Hpre Hs. induction Hpre as [|t pre Ht _ IH]; cbn [app assert_lengths].
  - by rewrite decide_False.
  - by rewrite decide_True.
Qed.

(** X19.  A malformed record stops the whole run: when the first entry whose
    length is not 8 is [s], [main] ends with the assertion error naming [s]
    and its length, before any feedback is computed, and writes nothing. *)
Theorem malformed_record_aborts (w : world) (lines pre post : list (list Z))
    (s : list Z) :
  data_exists w = true →
  data_file w = Some lines →
  filter (λ s, s ≠ []) (map strip lines) = pre ++ s :: post →
  Forall (λ s, length s = 8%nat) pre →
  length s ≠ 8%nat →
  main w = (inl (AssertionError s (length s)), w).
Proof.
  intros Hex Hfile Hsplit Hpre Hs.
  unfold main. rewrite Hex, Hfile. cbn [negb]. unfold load_solutions.
  by rewrite Hsplit, assert_lengths_first.
Qed.

(** * The progress lines *)

Lemma argmax_from_spec a : ∀ pre best bv,
  pre !! best = Some bv →
  (∀ j v, pre !! j = Some v → v ≤ bv) →
  (∀ j v, (j < best)%nat → pre !! j = Some v → v < bv) →
  ∃ rv,
    (pre ++ a) !! argmax_from best bv (length pre) a = Some rv
    ∧ (∀ j v, (pre ++ a) !! j = Some v → v ≤ rv)
    ∧ (∀ j v, (j < argmax_from best bv (length pre) a)%nat →
         (pre ++ a) !! j = Some v → v < rv).
Proof.
  induction a as [|x a IH]; intros pre best bv Hbest Hmax Hfirst.
  - rewrite app_nil_r. cbn [argmax_from]. by exists bv.
  - cbn [argmax_from]. rewrite (cons_middle x pre a), app_assoc.
    replace (S (length pre)) with (length (pre ++ [x]))
      by (rewrite length_app; cbn; lia).
    destruct (Z.ltb_spec bv x) as [Hlt|Hge]; apply IH.
    + by rewrite lookup_app_r, Nat.sub_diag.
    + intros j v [Hj|[_ Hj]]%lookup_app_Some.
      * apply Hmax in Hj. lia.
      * apply list_lookup_singleton_Some in Hj as [_ <-]. lia.
    + intros j v Hj Hv. rewrite lookup_app_l in Hv by done.
      apply Hmax in Hv. lia.
    + rewrite lookup_app_l; [done|]. by apply lookup_lt_Some in Hbest.
    + intros j v [Hj|[_ Hj]]%lookup_app_Some.
      * by apply Hmax in Hj.
      * apply list_lookup_singleton_Some in Hj as [_ <-]. lia.
    + intros j v Hj Hv. apply (Hfirst j v Hj).
      rewrite lookup_app_l in Hv; [done|].
      apply lookup_lt_Some in Hbest. lia.
Qed.

Lemma np_argmax_spec a :
  a ≠ [] →
  ∃ r rv,
    np_argmax a = Some r
    ∧ a !! r = Some rv
    ∧ (∀ j v, a !! j = Some v → v ≤ rv)
    ∧ (∀ j v, (j < r)%nat → a !! j = Some v → v < rv).
Proof.
  destruct a as [|x a]; [done|]. intros _. cbn [np_argmax].
  destruct (argmax_from_spec a [x] 0 x) as (rv & Hr & Hmax & Hfirst).
  - done.
  - intros j v Hj. apply list_lookup_singleton_Some in Hj as [_ <-]. lia.
  - intros j v Hj. lia.
  - exists (argmax_from 0 x 1 a), rv. by repeat split.
Qed.


Section ProgressLoop.
Context (encoded : list (list Z)).

Local Abbreviation count_at :=
  (λ gi, to_int32 (count_patterns encoded (default [] (encoded !! gi)))).
Local Abbreviation N := (length encoded).
Local Abbreviation filled m :=
  (map count_at (seq 0 m) ++ replicate (N - m) 0).

Lemma num_patterns_of_map :
  num_patterns_of encoded = map count_at (seq 0 N).
Proof.
  apply list_eq. intros i. rewrite list_lookup_fmap.
  destruct (decide (i < N)%nat) as [Hi|Hi].
  - rewrite lookup_seq_lt by done.
    destruct (lookup_lt_is_Some_2 encoded i Hi) as [g Hg].
    rewrite (num_patterns_lookup _ _ _ Hg). cbn. by rewrite Hg.
  - rewrite (lookup_ge_None_2 (seq 0 N)) by (rewrite length_seq; lia).
    apply lookup_ge_None_2. rewrite num_patterns_length. lia.
Qed.

Lemma filled_insert m :
  (m < N)%nat → <[m := count_at m]> (filled m) = filled (S m).
Proof.
  intros Hm.
  rewrite insert_app_r_alt by (rewrite length_map, length_seq; lia).
  rewrite length_map, length_seq, Nat.sub_diag.
  replace (N - m)%nat with (S (N - S m)) by lia.
  cbn [replicate]. cbn [insert list_insert].
  rewrite seq_S, map_app. cbn [map Nat.add]. by rewrite <- app_assoc.
Qed.

Lemma filled_prefix m i :
  (i < m)%nat → (m ≤ N)%nat →
  filled m !! i = num_patterns_of encoded !! i.
Proof.
  intros Hi Hm. rewrite num_patterns_of_map.
  rewrite lookup_app_l by (rewrite length_map, length_seq; lia).
  rewrite !list_lookup_fmap, !lookup_seq_lt by lia. done.
Qed.

Lemma loop_prefix m :
  (m ≤ N)%nat →
  ∃ printed,
    fold_left (loop_step encoded) (seq 0 m) (zeros N, []) = (filled m, printed)
    ∧ map processed printed
      = filter (λ n, n `mod` 2000 = 0)%nat (seq 1 m)
    ∧ Forall (line_ok (num_patterns_of encoded)) printed.
Proof.
  induction m as [|m IH]; intros Hm.
  - exists []. cbn [seq fold_left map]. rewrite Nat.sub_0_r.
    by repeat split.
  - destruct IH as (printed & Hfold & Hproc & Hok); [lia|].
    assert (fold_left (loop_step encoded) (seq 0 (S m)) (zeros N, [])
            = loop_step encoded (filled m, printed) m) as ->.
    { by rewrite seq_S, fold_left_app, Hfold. }
    rewrite (seq_S m 1), filter_app. cbn [Nat.add].
    unfold loop_step. rewrite filled_insert by lia.
    replace (m + 1)%nat with (S m) by lia.
    destruct (decide (S m `mod` 2000 = 0)%nat) as [Hmod|Hmod].
    + set (a := take (S m) (filled (S m))).
      assert (a = map count_at (seq 0 (S m))) as Ha.
      { unfold a. apply take_app_length'.
        by rewrite length_map, length_seq. }
      destruct (np_argmax_spec a) as (r & rv & -> & Hr & Hmax & Hfirst).
      { rewrite Ha, seq_S, map_app. intros Hnil.
        apply (f_equal length) in Hnil. rewrite length_app in Hnil.
        cbn in Hnil. lia. }
      assert (r < S m)%nat as Hrm.
      { apply lookup_lt_Some in Hr. by rewrite Ha, length_map, length_seq in Hr. }
      assert (∀ i, (i < S m)%nat →
                a !! i = num_patterns_of encoded !! i) as Hfinal.
      { intros i Hi. rewrite <- (filled_prefix (S m)) by lia.
        unfold a. by rewrite lookup_take_lt. }
      assert (filled (S m) !! r = Some rv) as Hnum.
      { rewrite filled_prefix, <- Hfinal by lia. done. }
      eexists. split; [reflexivity|]. split.
      * rewrite map_app, Hproc. cbn [map processed].
        by rewrite filter_cons_True.
      * apply Forall_app. split; [done|]. apply Forall_singleton.
        rewrite Hnum. cbn [default]. unfold line_ok. cbn.
        split; [done|]. split; [by rewrite <- Hfinal|]. split.
        -- intros i v Hi Hv. rewrite <- Hfinal in Hv by done. by eapply Hmax.
        -- intros i v Hi Hv. rewrite <- Hfinal in Hv by lia. by eapply Hfirst.
    + exists printed. split; [done|]. split; [|done].
      by rewrite filter_cons_False, filter_nil, app_nil_r.
Qed.
End ProgressLoop.


(** X20.  The progress report does not disturb the counting: the loop ends
    with the same [num_patterns].  It prints one line after every 2000th
    guess and no other, and the guess a line shows as best so far is among
    the guesses processed, has the largest count of them, and is the first of
    them to reach that count. *)
Theorem progress_lines_sound (encoded : list (list Z)) :
  fst (counting_loop encoded) = num_patterns_of encoded
  ∧ map processed (snd (counting_loop encoded))
    = filter (λ n, n `mod` 2000 = 0)%nat (seq 1 (length encoded))
  ∧ Forall (line_ok (num_patterns_of encoded)) (snd (counting_loop encoded)).
Proof.
  destruct (loop_prefix encoded (length encoded))
    as (printed & Hloop & Hp & Hok); [done|].
  unfold counting_loop. rewrite Hloop. cbn [fst snd].
  split; [|done].
  rewrite Nat.sub_diag, app_nil_r. symmetry. apply num_patterns_of_map.
Qed.

(** * Instances of the further properties *)

Lemma pattern_round_trip_witness :
  let guess := [49; 43; 50; 43; 51; 61; 48; 54] in
  let secret := [57; 45; 56; 45; 49; 61; 48; 48] in
  ∃ row h,
    feedback_marks guess [secret] !! 0%nat = Some row
    ∧ compute_feedback guess [secret] !! 0%nat = Some h
    ∧ length row = 8%nat
    ∧ Forall (λ x, x = 0 ∨ x = 1 ∨ x = 2) row
    ∧ map (symbol_at h) (seq 0 8) = row.
Proof.
  cbv zeta.
  apply (pattern_round_trip [49; 43; 50; 43; 51; 61; 48; 54]
           [[57; 45; 56; 45; 49; 61; 48; 48]] 0
           [57; 45; 56; 45; 49; 61; 48; 48]); reflexivity.
Defined.

Lemma match_iff_same_character_witness :
  let guess := [49; 43; 50; 43; 51; 61; 48; 54] in
  let secret := [57; 45; 56; 45; 49; 61; 48; 48] in
  symbol_at 1945 5 = 2 ↔ guess !! 5%nat = secret !! 5%nat.
Proof.
  cbv zeta.
  apply (match_iff_same_character [49; 43; 50; 43; 51; 61; 48; 54]
           [[57; 45; 56; 45; 49; 61; 48; 48]] 0
           [57; 45; 56; 45; 49; 61; 48; 48] 1945 5);
    reflexivity || lia.
Defined.

Lemma present_means_elsewhere_witness :
  let guess := [49; 43; 50; 43; 51; 61; 48; 54] in
  let secret := [57; 45; 56; 45; 49; 61; 48; 48] in
  symbol_at 1945 0 = 1
  ∧ secret !! 0%nat ≠ Some 49
  ∧ (∃ q, q ≠ 0%nat ∧ secret !! q = Some 49 ∧ guess !! q ≠ Some 49)
  ∧ occurrences 43 secret = 0%nat
  ∧ symbol_at 1945 1 = 0.
Proof.
  cbv zeta.
  destruct (present_means_elsewhere [49; 43; 50; 43; 51; 61; 48; 54]
              [[57; 45; 56; 45; 49; 61; 48; 48]] 0
              [57; 45; 56; 45; 49; 61; 48; 48] 1945 0 49
              eq_refl eq_refl eq_refl eq_refl eq_refl) as [Hpresent _].
  destruct (present_means_elsewhere [49; 43; 50; 43; 51; 61; 48; 54]
              [[57; 45; 56; 45; 49; 61; 48; 48]] 0
              [57; 45; 56; 45; 49; 61; 48; 48] 1945 1 43
              eq_refl eq_refl eq_refl eq_refl eq_refl) as [_ Habsent].
  split; [reflexivity|]. split; [exact (proj1 (Hpresent eq_refl))|].
  split; [exact (proj2 (Hpresent eq_refl))|].
  split; [reflexivity|]. exact (Habsent eq_refl).
Defined.

Lemma credits_exact_witness :
  let guess := [49; 43; 50; 43; 51; 61; 48; 54] in
  let secret := [57; 45; 56; 45; 49; 61; 48; 48] in
  length (marked (λ x, negb (x =? 0)) guess 1945 48)
  = (occurrences 48 guess `min` occurrences 48 secret)%nat.
Proof.
  cbv zeta.
  apply (credits_exact [49; 43; 50; 43; 51; 61; 48; 54]
           [[57; 45; 56; 45; 49; 61; 48; 48]] 0
           [57; 45; 56; 45; 49; 61; 48; 48] 1945 48); reflexivity.
Defined.

Lemma rearrangement_has_no_absent_witness :
  let guess := [49; 43; 50; 43; 51; 61; 48; 54] in
  let secret := reverse guess in
  (∀ c, occurrences c guess = occurrences c secret)
  ∧ (symbol_at 3280 4 = 1 ∨ symbol_at 3280 4 = 2).
Proof.
  cbv zeta.
  assert (∀ c, occurrences c [49; 43; 50; 43; 51; 61; 48; 54]
               = occurrences c (reverse [49; 43; 50; 43; 51; 61; 48; 54]))
    as Hsame.
  { intros c. unfold occurrences. by rewrite filter_reverse, length_reverse. }
  split; [exact Hsame|].
  apply (rearrangement_has_no_absent [49; 43; 50; 43; 51; 61; 48; 54]
           [reverse [49; 43; 50; 43; 51; 61; 48; 54]] 0
           (reverse [49; 43; 50; 43; 51; 61; 48; 54]) 3280 4);
    try reflexivity; [exact Hsame|lia].
Defined.

Lemma count_never_wraps_witness :
  let g := [49; 43; 50; 43; 51; 61; 48; 54] in
  let encoded :=
    [g; [49; 43; 50; 43; 52; 61; 48; 55]; [57; 45; 56; 45; 49; 61; 48; 48]] in
  num_patterns_of encoded !! 0%nat = Some (count_patterns encoded g)
  ∧ 0 ≤ count_patterns encoded g ≤ 6560
  ∧ count_patterns encoded g ≤ Z.of_nat (length encoded).
Proof.
  cbv zeta.
  apply (count_never_wraps
           [[49; 43; 50; 43; 51; 61; 48; 54];
            [49; 43; 50; 43; 52; 61; 48; 55];
            [57; 45; 56; 45; 49; 61; 48; 48]] 0
           [49; 43; 50; 43; 51; 61; 48; 54]); reflexivity.
Defined.

Lemma count_monotone_witness :
  let g := [49; 43; 50; 43; 51; 61; 48; 54] in
  let s := [57; 45; 56; 45; 49; 61; 48; 48] in
  count_patterns [g; s] g ≤ count_patterns [s; g; s] g
  ∧ count_patterns [g; s] g = count_patterns [s; g; s] g.
Proof.
  cbv zeta.
  destruct (count_monotone
              [[49; 43; 50; 43; 51; 61; 48; 54];
               [57; 45; 56; 45; 49; 61; 48; 48]]
              [[57; 45; 56; 45; 49; 61; 48; 48];
               [49; 43; 50; 43; 51; 61; 48; 54];
               [57; 45; 56; 45; 49; 61; 48; 48]]
              [49; 43; 50; 43; 51; 61; 48; 54]) as [Hle Heq].
  - intros s. rewrite !elem_of_cons. tauto.
  - split; [exact Hle|]. apply Heq.
    intros s. rewrite !elem_of_cons. tauto.
Defined.

Lemma solve_in_2_closed_form_witness :
  let g := [49; 43; 50; 43; 51; 61; 48; 54] in
  let encoded :=
    [g; [49; 43; 50; 43; 52; 61; 48; 55]; [57; 45; 56; 45; 49; 61; 48; 48]] in
  (solve_in_2 encoded g
   == true_divide (count_patterns encoded g) (length encoded))%Q.
Proof.
  cbv zeta.
  apply (solve_in_2_closed_form
           [[49; 43; 50; 43; 51; 61; 48; 54];
            [49; 43; 50; 43; 52; 61; 48; 55];
            [57; 45; 56; 45; 49; 61; 48; 48]]
           [49; 43; 50; 43; 51; 61; 48; 54]).
  - repeat constructor.
  - reflexivity.
Defined.

Lemma encode_solutions_rows_witness :
  encode_solutions [[49; 43]; [49; 43; 50; 43; 51; 61; 48; 54]]
  = inr (map (λ s, s ++ replicate (8 - length s) 0)
           [[49; 43]; [49; 43; 50; 43; 51; 61; 48; 54]])
  ∧ encode_solutions [[49; 43; 50; 43; 51; 61; 48; 54]]
    = inr [[49; 43; 50; 43; 51; 61; 48; 54]].
Proof.
  split.
  - apply (encode_solutions_rows
             [[49; 43]; [49; 43; 50; 43; 51; 61; 48; 54]]);
      repeat constructor; cbn; lia.
  - apply (encode_solutions_rows [[49; 43; 50; 43; 51; 61; 48; 54]]);
      repeat constructor; cbn; lia.
Defined.

Lemma encode_solutions_too_long_witness :
  encode_solutions
    ([[49; 43; 50; 43; 51; 61; 48; 54]]
     ++ [49; 43; 50; 43; 51; 61; 48; 54; 48]
     :: [[57; 45; 56; 45; 49; 61; 48; 48]])
  = inl IndexError.
Proof.
  apply (encode_solutions_too_long
           [[49; 43; 50; 43; 51; 61; 48; 54]]
           [[57; 45; 56; 45; 49; 61; 48; 48]]
           [49; 43; 50; 43; 51; 61; 48; 54; 48]);
    repeat constructor; cbn; lia.
Defined.


Lemma csv_row_consistent_witness :
  let g := [49; 43; 50; 43; 51; 61; 48; 54] in
  let w :=
    World "/home/user/nerdle" true
      (Some [g ++ [10]; [57; 45; 56; 45; 49; 61; 48; 48; 10]]) None in
  let row := CsvRow 1 g 1 (1 # 2) in
  default [] (csv_file (snd (main w))) !! 0%nat = Some row
  ∧ ∃ encoded,
      load_solutions (data_file w) = inr encoded
      ∧ length (default [] (csv_file (snd (main w)))) = length encoded
      ∧ row_guess row ∈ encoded
      ∧ row_rank row = 1%nat
      ∧ row_patterns row = count_patterns encoded (row_guess row)
      ∧ row_p row = true_divide (row_patterns row) (length encoded).
Proof.
  cbv zeta. split; [by vm_compute|].
  set (w := World _ _ _ _).
  assert (main w = (inr (), snd (main w))) as Hmain by by vm_compute.
  assert (csv_file (snd (main w))
          = Some (default [] (csv_file (snd (main w))))) as Hcsv
    by by vm_compute.
  assert (default [] (csv_file (snd (main w))) !! 0%nat
          = Some (CsvRow 1 [49; 43; 50; 43; 51; 61; 48; 54] 1 (1 # 2)))
    as Hrow by by vm_compute.
  exact (csv_row_consistent w _ _ 0 _ Hmain Hcsv Hrow).
Defined.

Lemma empty_input_index_error_witness :
  let w := World "/home/user/nerdle" true (Some [[32; 10]; []; [9; 13; 10]])
             None in
  load_solutions (data_file w) = inr [] ∧ main w = (inl IndexError, w).
Proof.
  cbv zeta.
  apply (empty_input_index_error
           (World "/home/user/nerdle" true (Some [[32; 10]; []; [9; 13; 10]])
              None)
           [[32; 10]; []; [9; 13; 10]]); try reflexivity.
  repeat constructor.
Defined.

Lemma summary_extremes_witness :
  let solutions :=
    [[49; 43; 50; 43; 51; 61; 48; 54]; [49; 43; 50; 43; 52; 61; 48; 55];
     [57; 45; 56; 45; 49; 61; 48; 48]] in
  let num_patterns := [2; 2; 1] in
  let p_solve2 := p_solve2_of num_patterns 3 in
  ∃ s, summarize solutions num_patterns p_solve2 (ranking p_solve2) = inr s
       ∧ ∃ kb kw,
           num_patterns !! best_idx s = Some kb
           ∧ num_patterns !! worst_idx s = Some kw
           ∧ kw ≤ 2 ≤ kb.
Proof.
  cbv zeta. eexists. split; [by vm_compute|].
  apply (summary_extremes
           [[49; 43; 50; 43; 51; 61; 48; 54];
            [49; 43; 50; 43; 52; 61; 48; 55];
            [57; 45; 56; 45; 49; 61; 48; 48]] [2; 2; 1] 3 _ 1 2);
    [lia|by vm_compute|reflexivity].
Defined.

Lemma summary_tables_witness :
  let solutions :=
    [[49; 43; 50; 43; 51; 61; 48; 54]; [49; 43; 50; 43; 52; 61; 48; 55];
     [57; 45; 56; 45; 49; 61; 48; 48]] in
  let num_patterns := [2; 2; 1] in
  let p_solve2 := p_solve2_of num_patterns 3 in
  let table := csv_rows solutions num_patterns p_solve2 (ranking p_solve2) in
  ∃ s, summarize solutions num_patterns p_solve2 (ranking p_solve2) = inr s
       ∧ top20 s = take 20 table
       ∧ length (worst5 s) = (5 `min` length table)%nat
       ∧ ∀ i row, worst5 s !! i = Some row →
           ∃ row', table !! (length table - 1 - i)%nat = Some row'
                   ∧ row_rank row = S i
                   ∧ row_guess row = row_guess row'
                   ∧ row_patterns row = row_patterns row'
                   ∧ row_p row = row_p row'.
Proof.
  cbv zeta. eexists. split; [by vm_compute|].
  apply (summary_tables
           [[49; 43; 50; 43; 51; 61; 48; 54];
            [49; 43; 50; 43; 52; 61; 48; 55];
            [57; 45; 56; 45; 49; 61; 48; 48]] [2; 2; 1]
           (p_solve2_of [2; 2; 1] 3) (ranking (p_solve2_of [2; 2; 1] 3))).
  by vm_compute.
Defined.

Lemma load_solutions_idempotent_witness :
  let solutions :=
    [[49; 43; 50; 43; 51; 61; 48; 54]; [49; 43; 50; 43; 52; 61; 48; 55]] in
  let lines :=
    [[49; 43; 50; 43; 51; 61; 48; 54; 10]; [32; 10];
     [32; 49; 43; 50; 43; 52; 61; 48; 55; 32; 10]] in
  Forall (λ s, length s = 8%nat ∧ strip s = s) solutions
  ∧ (length solutions ≤ length lines)%nat
  ∧ load_solutions (Some solutions) = inr solutions.
Proof.
  cbv zeta.
  apply (load_solutions_idempotent
           [[49; 43; 50; 43; 51; 61; 48; 54; 10]; [32; 10];
            [32; 49; 43; 50; 43; 52; 61; 48; 55; 32; 10]]
           [[49; 43; 50; 43; 51; 61; 48; 54];
            [49; 43; 50; 43; 52; 61; 48; 55]]).
  reflexivity.
Defined.

Lemma malformed_record_aborts_witness :
  let lines :=
    [[49; 43; 50; 43; 51; 61; 48; 54; 10]; [49; 43; 50; 61; 51; 10];
     [57; 45; 56; 10]] in
  let w := World "/home/user/nerdle" true (Some lines) None in
  main w = (inl (AssertionError [49; 43; 50; 61; 51] 5), w).
Proof.
  cbv zeta.
  apply (malformed_record_aborts
           (World "/home/user/nerdle" true
              (Some [[49; 43; 50; 43; 51; 61; 48; 54; 10];
                     [49; 43; 50; 61; 51; 10]; [57; 45; 56; 10]]) None)
           [[49; 43; 50; 43; 51; 61; 48; 54; 10]; [49; 43; 50; 61; 51; 10];
            [57; 45; 56; 10]]
           [[49; 43; 50; 43; 51; 61; 48; 54]] [[57; 45; 56]]
           [49; 43; 50; 61; 51]); try reflexivity.
  - repeat constructor.
  - cbn. lia.
Defined.
